(** * MonsGeek userspace HID driver (monsgeek_hid.py)

    A shallow embedding of the report translator, the event sink and the
    connection lifecycle of [MonsGeekHID], and the properties of the
    specification checked against it.

    Conventions of the embedding:
    - Python [int] is [Z]; a [bytes] object is a [list byte];
    - a Python [set] of ints is a [gset Z], a [dict] a [gmap];
    - the order in which a [for] loop visits a set is not fixed by the
      language: it is the parameter [set_iter], about which the theorems
      assume only that it enumerates the set, each member once;
    - methods run in a state-and-exception monad over the object's fields
      and the operating system's side of the file descriptors. *)

From Stdlib Require Import ZArith Lia.
From Stdlib.Strings Require Import Byte.
From stdpp Require Import gmap list strings.

Local Open Scope Z_scope.

(** ** Bytes and [struct.pack] *)

Abbreviation bytes := (list byte).

#[global] Instance byte_eq_decision : EqDecision byte := Byte.byte_eq_dec.

(** Indexing a [bytes] object yields an int in [0, 256). *)
Definition byte_to_Z (b : byte) : Z := Z.of_N (Byte.to_N b).

Definition Z_to_byte (z : Z) : byte :=
  default x00 (Byte.of_N (Z.to_N (z mod 256))).

(** The [n] low-order bytes of [z], least significant first (two's
    complement for a negative [z]). *)
Fixpoint le_bytes (n : nat) (z : Z) : bytes :=
  match n with
  | O => []
  | S n' => Z_to_byte z :: le_bytes n' (z / 256)
  end.

(** [struct.pack("llHHi", sec, usec, type, code, value)] in native mode on
    64-bit little-endian Linux: fields of 8, 8, 2, 2 and 4 bytes, each
    already aligned, so no padding.  [struct.pack] raises on a field out
    of range; every call of the driver passes constants of the tables
    below and a bit, which are in range ([table_codes_in_range]). *)
Definition pack_llHHi (sec usec type code value : Z) : bytes :=
  le_bytes 8 sec ++ le_bytes 8 usec ++ le_bytes 2 type ++
  le_bytes 2 code ++ le_bytes 4 value.

(** ** Constants *)

Definition EV_SYN : Z := 0x00.
Definition EV_KEY : Z := 0x01.
Definition SYN_REPORT : Z := 0x00.

(** [struct.calcsize("llHHi")] *)
Definition EVENT_SIZE : nat := 24.

Definition SYN_EVENT : bytes := pack_llHHi 0 0 EV_SYN SYN_REPORT 0.

(** The items of the [HID_TO_LINUX] dict literal, in source order. *)
Definition HID_TO_LINUX_items : list (Z * Z) :=
  [ (0x04, 30); (0x05, 48); (0x06, 46); (0x07, 32); (0x08, 18); (0x09, 33);
    (0x0a, 34); (0x0b, 35); (0x0c, 23); (0x0d, 36); (0x0e, 37); (0x0f, 38);
    (0x10, 50); (0x11, 49); (0x12, 24); (0x13, 25); (0x14, 16); (0x15, 19);
    (0x16, 31); (0x17, 20); (0x18, 22); (0x19, 47); (0x1a, 17); (0x1b, 45);
    (0x1c, 21); (0x1d, 44); (0x1e, 2); (0x1f, 3); (0x20, 4); (0x21, 5);
    (0x22, 6); (0x23, 7); (0x24, 8); (0x25, 9); (0x26, 10); (0x27, 11);
    (0x28, 28); (0x29, 1); (0x2a, 14); (0x2b, 15); (0x2c, 57); (0x2d, 12);
    (0x2e, 13); (0x2f, 26); (0x30, 27); (0x31, 43); (0x32, 43); (0x33, 39);
    (0x34, 40); (0x35, 41); (0x36, 51); (0x37, 52); (0x38, 53); (0x39, 58);
    (0x3a, 59); (0x3b, 60); (0x3c, 61); (0x3d, 62); (0x3e, 63); (0x3f, 64);
    (0x40, 65); (0x41, 66); (0x42, 67); (0x43, 68); (0x44, 87); (0x45, 88);
    (0x46, 99); (0x47, 70); (0x48, 119); (0x49, 110); (0x4a, 102);
    (0x4b, 104); (0x4c, 111); (0x4d, 107); (0x4e, 109); (0x4f, 106);
    (0x50, 105); (0x51, 108); (0x52, 103); (0x53, 69); (0x54, 98);
    (0x55, 55); (0x56, 74); (0x57, 78); (0x58, 96); (0x59, 79); (0x5a, 80);
    (0x5b, 81); (0x5c, 75); (0x5d, 76); (0x5e, 77); (0x5f, 71); (0x60, 72);
    (0x61, 73); (0x62, 82); (0x63, 83); (0x64, 86); (0x65, 127);
    (0x66, 116); (0x67, 117) ].

(** HID scancode to Linux keycode. *)
Definition HID_TO_LINUX : gmap Z Z := list_to_map HID_TO_LINUX_items.

(** Modifier bit positions to Linux keycodes, in the tuple's order. *)
Definition MODIFIER_MAP : list (Z * Z) :=
  [ (0, 29); (1, 42); (2, 56); (3, 125); (4, 97); (5, 54); (6, 100);
    (7, 126) ].

Definition make_key_event (keycode value : Z) : bytes :=
  pack_llHHi 0 0 EV_KEY keycode value.

#[global] Arguments HID_TO_LINUX : simpl never.
#[global] Arguments MODIFIER_MAP : simpl never.
#[global] Arguments SYN_EVENT : simpl never.
#[global] Arguments make_key_event : simpl never.

(** ** Sets

    [for x in s] over a Python set visits every member once, in an order
    the language leaves open. *)
Class SetIteration := set_iter : gset Z → list Z.

(** ** Object, operating system and exceptions *)

(** The fields of a [MonsGeekHID] object that the driver reads back;
    [write_buffer] is allocated in [__init__] and never used. *)
Record MonsGeekHID := {
  uinput_fd : option Z;
  hidraw_fd : option Z;
  prev_modifiers : Z;
  prev_keys : gset Z;
}.

(** One call of [os.write]: descriptor, payload, and the error number the
    kernel answered with, [None] for a successful write. *)
Record write_call := {
  wr_fd : Z;
  wr_data : bytes;
  wr_error : option Z;
}.

(** The object together with what is outside it: the [os.write] calls made
    so far (oldest first), the answers the kernel will give to the coming
    ones (success once the list is used up), the descriptors closed, and a
    trace with the argument of every call of [emit_events]. *)
Record world := {
  obj : MonsGeekHID;
  writes : list write_call;
  write_faults : list (option Z);
  closed : list Z;
  emit_calls : list (list bytes);
}.

Inductive exn :=
  | OSError (errno : Z)
  | TypeError.

Inductive result (A : Type) :=
  | Ok (a : A)
  | Raise (e : exn).
Arguments Ok {A} a.
Arguments Raise {A} e.

Definition M (A : Type) : Type := world → result A * world.

#[global] Instance M_ret : MRet M := λ A a w, (Ok a, w).
#[global] Instance M_bind : MBind M := λ A B f c w,
  match c w with
  | (Ok a, w') => f a w'
  | (Raise e, w') => (Raise e, w')
  end.

Definition raise {A} (e : exn) : M A := λ w, (Raise e, w).

Definition get_self : M MonsGeekHID := λ w, (Ok (obj w), w).

Definition modify (f : world → world) : M unit := λ w, (Ok tt, f w).

(** [try: body / except ...: handler]; [handler e = None] when no
    [except] clause matches [e]. *)
Definition try_except {A} (body : M A) (handler : exn → option (M A)) : M A :=
  λ w, match body w with
       | (Ok a, w') => (Ok a, w')
       | (Raise e, w') =>
           match handler e with
           | Some h => h w'
           | None => (Raise e, w')
           end
       end.

(** [try: body / finally: cleanup] *)
Definition try_finally {A} (body : M A) (cleanup : M unit) : M A :=
  λ w, match body w with
       | (Ok a, w') =>
           match cleanup w' with
           | (Ok _, w'') => (Ok a, w'')
           | (Raise e, w'') => (Raise e, w'')
           end
       | (Raise e, w') =>
           match cleanup w' with
           | (Ok _, w'') => (Raise e, w'')
           | (Raise e', w'') => (Raise e', w'')
           end
       end.

(** [OSError] picks the subclass [BlockingIOError] for EAGAIN (which is
    EWOULDBLOCK on Linux), EALREADY and EINPROGRESS. *)
Definition is_BlockingIOError (e : exn) : bool :=
  match e with
  | OSError errno => bool_decide (errno = 11 ∨ errno = 114 ∨ errno = 115)
  | TypeError => false
  end.

Definition with_obj (f : MonsGeekHID → MonsGeekHID) (w : world) : world :=
  {| obj := f (obj w); writes := writes w; write_faults := write_faults w;
     closed := closed w; emit_calls := emit_calls w |}.

Definition set_uinput_fd (v : option Z) : M unit :=
  modify (with_obj (λ s, {| uinput_fd := v; hidraw_fd := hidraw_fd s;
    prev_modifiers := prev_modifiers s; prev_keys := prev_keys s |})).

Definition set_hidraw_fd (v : option Z) : M unit :=
  modify (with_obj (λ s, {| uinput_fd := uinput_fd s; hidraw_fd := v;
    prev_modifiers := prev_modifiers s; prev_keys := prev_keys s |})).

Definition set_prev_modifiers (v : Z) : M unit :=
  modify (with_obj (λ s, {| uinput_fd := uinput_fd s; hidraw_fd := hidraw_fd s;
    prev_modifiers := v; prev_keys := prev_keys s |})).

Definition set_prev_keys (v : gset Z) : M unit :=
  modify (with_obj (λ s, {| uinput_fd := uinput_fd s; hidraw_fd := hidraw_fd s;
    prev_modifiers := prev_modifiers s; prev_keys := v |})).

(** [os.write(fd, data)]: a [TypeError] for [None] in place of a
    descriptor; otherwise the call is made and the kernel's next answer
    decides between success and [OSError]. *)
Definition os_write (fd : option Z) (data : bytes) : M unit := λ w,
  match fd with
  | None => (Raise TypeError, w)
  | Some d =>
      let answer := default None (head (write_faults w)) in
      let w' := {| obj := obj w;
                   writes := writes w ++
                     [{| wr_fd := d; wr_data := data; wr_error := answer |}];
                   write_faults := tail (write_faults w);
                   closed := closed w; emit_calls := emit_calls w |} in
      match answer with
      | None => (Ok tt, w')
      | Some errno => (Raise (OSError errno), w')
      end
  end.

(** [try: os.close(fd) / except: pass] *)
Definition os_close_quietly (fd : Z) : M unit :=
  modify (λ w, {| obj := obj w; writes := writes w;
                  write_faults := write_faults w;
                  closed := closed w ++ [fd]; emit_calls := emit_calls w |}).

Definition trace_emit (events : list bytes) : M unit :=
  modify (λ w, {| obj := obj w; writes := writes w;
                  write_faults := write_faults w; closed := closed w;
                  emit_calls := emit_calls w ++ [events] |}).

(** What [os.open] answers. *)
Inductive open_answer :=
  | Opened (fd : Z)
  | OpenError (errno : Z).

(** What [os.read(self.hidraw_fd, 64)] answers. *)
Inductive read_answer :=
  | ReadData (data : bytes)
  | ReadError (errno : Z).

Definition os_read (r : read_answer) : M bytes :=
  match r with
  | ReadData data => mret data
  | ReadError errno => raise (OSError errno)
  end.

Inductive loop_ctl := Continue | Break.

(** What the outside answers during one iteration of the main loop:
    [find_hidraw] and [os.open] (asked only while disconnected), whether
    [select] reports the descriptor readable, and the reads that return
    before one would block. *)
Record poll_env := {
  env_found : bool;
  env_opened : open_answer;
  env_readable : bool;
  env_reads : list read_answer;
}.

(** ** The methods of [MonsGeekHID] *)

(** [__init__] *)
Definition init : MonsGeekHID :=
  {| uinput_fd := None; hidraw_fd := None; prev_modifiers := 0;
     prev_keys := ∅ |}.

(** [emit_events]: all events and one SYN_REPORT in a single [os.write];
    nothing at all for an empty list. *)
Definition emit_events (events : list bytes) : M unit :=
  trace_emit events;;
  match events with
  | [] => mret tt
  | _ =>
      let data := concat events ++ SYN_EVENT in
      s ← get_self;
      os_write (uinput_fd s) data
  end.

(** [data[i:j]] *)
Definition slice {A} (i j : nat) (l : list A) : list A :=
  take (j - i) (drop i l).

(** [(x >> bit) & 1] *)
Definition bit_of (x bit : Z) : Z := Z.land (Z.shiftr x bit) 1.

(** [data[0]] of a report that passed the length check. *)
Definition report_modifiers (data : bytes) : Z :=
  match data with
  | b :: _ => byte_to_Z b
  | [] => 0
  end.

(** [set(data[2:8]) - {0}] *)
Definition report_keys (data : bytes) : gset Z :=
  list_to_set (byte_to_Z <$> slice 2 8 data) ∖ {[0]}.

(** The loop over [MODIFIER_MAP] of [process_hid_report], appending to
    [events]. *)
Definition modifier_changes (prev modifiers : Z) (events : list bytes)
  : list bytes :=
  foldl (λ events '(bit, keycode),
           let was_pressed := bit_of prev bit in
           let is_pressed := bit_of modifiers bit in
           if decide (was_pressed ≠ is_pressed)
           then events ++ [make_key_event keycode is_pressed]
           else events)
        events MODIFIER_MAP.

(** A loop [for hid_code in codes: if hid_code in HID_TO_LINUX:
    events.append(make_key_event(HID_TO_LINUX[hid_code], value))]. *)
Definition key_changes (value : Z) (codes : list Z) (events : list bytes)
  : list bytes :=
  foldl (λ events hid_code,
           match HID_TO_LINUX !! hid_code with
           | Some keycode => events ++ [make_key_event keycode value]
           | None => events
           end)
        events codes.

(** The loop over [MODIFIER_MAP] of [release_all_keys]. *)
Definition modifier_releases (prev : Z) (events : list bytes) : list bytes :=
  foldl (λ events '(bit, keycode),
           if decide (bit_of prev bit ≠ 0)
           then events ++ [make_key_event keycode 0]
           else events)
        events MODIFIER_MAP.

Section Methods.
Context `{SetIteration}.

(** The list [events] that [process_hid_report] has built when it
    reaches [self.emit_events(events)]. *)
Definition report_events (s : MonsGeekHID) (data : bytes) : list bytes :=
  let modifiers := report_modifiers data in
  let keys := report_keys data in
  let events := [] in
  let events := modifier_changes (prev_modifiers s) modifiers events in
  let events := key_changes 0 (set_iter (prev_keys s ∖ keys)) events in
  let events := key_changes 1 (set_iter (keys ∖ prev_keys s)) events in
  events.

Definition process_hid_report (data : bytes) : M unit :=
  if decide (length data < 8)%nat then mret tt
  else
    s ← get_self;
    emit_events (report_events s data);;
    set_prev_modifiers (report_modifiers data);;
    set_prev_keys (report_keys data).

(** The list [events] that [release_all_keys] hands to [emit_events]. *)
Definition release_events (s : MonsGeekHID) : list bytes :=
  let events := [] in
  let events := key_changes 0 (set_iter (prev_keys s)) events in
  let events := modifier_releases (prev_modifiers s) events in
  events.

Definition release_all_keys : M unit :=
  s ← get_self;
  emit_events (release_events s);;
  set_prev_modifiers 0;;
  set_prev_keys ∅.

Definition disconnect_hidraw : M unit :=
  s ← get_self;
  match hidraw_fd s with
  | Some fd =>
      os_close_quietly fd;;
      set_hidraw_fd None;;
      release_all_keys
  | None => mret tt
  end.

(** [connect_hidraw], given what [find_hidraw] and [os.open] answer:
    whether a matching hidraw node was found, and the descriptor or the
    error of opening it. *)
Definition connect_hidraw (found : bool) (opened : open_answer) : M bool :=
  if found then
    match opened with
    | Opened fd =>
        set_hidraw_fd (Some fd);;
        set_prev_modifiers 0;;
        set_prev_keys ∅;;
        mret true
    | OpenError _ => mret false
    end
  else mret false.

(** One round of the inner [while True] of [run]: read, process a report
    of at least 8 bytes, leave the loop on [BlockingIOError]. *)
Definition drain_step (r : read_answer) : M loop_ctl :=
  try_except
    (data ← os_read r;
     (if decide (8 ≤ length data)%nat then process_hid_report data
      else mret tt);;
     mret Continue)
    (λ e, if is_BlockingIOError e then Some (mret Break) else None).

(** The inner loop over the answers of the successive [os.read] calls;
    once they are used up the next read would block, which ends the
    loop. *)
Fixpoint drain (reads : list read_answer) : M unit :=
  match reads with
  | [] => mret tt
  | r :: rest =>
      c ← drain_step r;
      match c with
      | Continue => drain rest
      | Break => mret tt
      end
  end.

(** The [try] ... [except OSError as e] of the main loop. *)
Definition poll_device (readable : bool) (reads : list read_answer)
  : M unit :=
  try_except
    (if readable then drain reads else mret tt)
    (λ e, match e with
          | OSError errno =>
              Some (if decide (errno = 19) then disconnect_hidraw
                    else if decide (errno ≠ 11) then raise e
                    else mret tt)
          | TypeError => None
          end).

(** One iteration of the outer [while True]. *)
Definition run_iteration (env : poll_env) : M unit :=
  s ← get_self;
  connected ← match hidraw_fd s with
              | None => connect_hidraw (env_found env) (env_opened env)
              | Some _ => mret true
              end;
  if connected : bool then poll_device (env_readable env) (env_reads env)
  else mret tt.

Fixpoint run_loop (envs : list poll_env) : M unit :=
  match envs with
  | [] => mret tt
  | env :: rest => run_iteration env;; run_loop rest
  end.

(** [run] after [setup_uinput] has returned with descriptor [fd]: the
    loop runs one iteration per element of [envs] and is then
    interrupted from the keyboard; the [finally] block runs on every
    way out.  A result [Raise e] is the process ending on the
    exception [e]. *)
Definition run (fd : Z) (envs : list poll_env) : M unit :=
  set_uinput_fd (Some fd);;
  try_finally
    (run_loop envs)
    (disconnect_hidraw;;
     s ← get_self;
     match uinput_fd s with
     | Some u => os_close_quietly u
     | None => mret tt
     end).
End Methods.

(** The world in which a fresh object starts, the kernel answering the
    coming writes with [faults]. *)
Definition initial_world (faults : list (option Z)) : world :=
  {| obj := init; writes := []; write_faults := faults; closed := [];
     emit_calls := [] |}.

(** ** What the synthetic device receives *)

(** The kernel reads a written payload as consecutive [input_event]
    structs of [EVENT_SIZE] bytes. *)
Definition payload_events (data : bytes) : list bytes :=
  reshape (replicate (length data / EVENT_SIZE) EVENT_SIZE) data.

(** All events delivered so far: those of the writes that succeeded. *)
Definition delivered_events (w : world) : list bytes :=
  concat (payload_events <$>
            (wr_data <$> filter (λ c, wr_error c = None) (writes w))).

(** Press events minus release events among [events] for the keycode
    [keycode]. *)
Definition key_balance (keycode : Z) (events : list bytes) : Z :=
  Z.of_nat (length (filter (λ e, e = make_key_event keycode 1) events))
  - Z.of_nat (length (filter (λ e, e = make_key_event keycode 0) events)).

(** The same for a scancode: the events that carry its keycode; a
    scancode outside [HID_TO_LINUX] has none. *)
Definition scancode_balance (hid_code : Z) (events : list bytes) : Z :=
  match HID_TO_LINUX !! hid_code with
  | Some keycode => key_balance keycode events
  | None => 0
  end.

(** The set iteration used to run the model on concrete inputs. *)
Definition elements_iteration : SetIteration := elements.

(** ** Vocabulary of the statements *)

(** The events of the scancodes [codes] that have a keycode, in the order
    of [codes]. *)
Definition key_events (value : Z) (codes : list Z) : list bytes :=
  omap (λ hid_code,
          (λ keycode, make_key_event keycode value) <$>
            HID_TO_LINUX !! hid_code)
       codes.

(** One event for every modifier bit that differs between [prev] and
    [modifiers], carrying the new value of the bit, in the order of
    [MODIFIER_MAP]. *)
Definition modifier_change_events (prev modifiers : Z) : list bytes :=
  omap (λ bk : Z * Z,
          if decide (bit_of prev bk.1 ≠ bit_of modifiers bk.1)
          then Some (make_key_event bk.2 (bit_of modifiers bk.1))
          else None)
       MODIFIER_MAP.

(** One release event for every modifier bit set in [prev]. *)
Definition modifier_release_events (prev : Z) : list bytes :=
  omap (λ bk : Z * Z,
          if decide (bit_of prev bk.1 ≠ 0)
          then Some (make_key_event bk.2 0)
          else None)
       MODIFIER_MAP.

(** The pressed set of the most recent report; empty before the first. *)
Definition last_pressed (reports : list bytes) : gset Z :=
  match last reports with
  | Some data => report_keys data
  | None => ∅
  end.

(** The number of scancodes in [keys] whose keycode is [keycode]. *)
Definition holders (keycode : Z) (keys : gset Z) : nat :=
  length (filter (λ s, HID_TO_LINUX !! s = Some keycode) (elements keys)).

(** The rollover bound on the tracked scancodes. *)
Definition rollover_ok (w : world) : Prop :=
  (size (prev_keys (obj w)) ≤ 6)%nat.

(** [set_iter] enumerates a set: every member once, nothing else. *)
Definition iteration_ok `{SetIteration} : Prop :=
  ∀ s : gset Z, set_iter s ≡ₚ elements s.

(** A fresh object whose synthetic device is open on descriptor [fd]. *)
Definition world_after_setup (fd : Z) (faults : list (option Z)) : world :=
  (set_uinput_fd (Some fd) (initial_world faults)).2.

(** The synthetic device of [w] is open on descriptor [fd]. *)
Definition ready (fd : Z) (w : world) : Prop := uinput_fd (obj w) = Some fd.

(** The kernel accepts the next write, and every coming write. *)
Definition next_write_succeeds (w : world) : Prop :=
  default None (head (write_faults w)) = None.

Definition all_writes_succeed (w : world) : Prop :=
  Forall (λ answer, answer = None) (write_faults w).

(** The single successful write of a batch of events; none for an empty
    batch. *)
Definition batch_write (fd : Z) (events : list bytes) : list write_call :=
  match events with
  | [] => []
  | _ => [{| wr_fd := fd; wr_data := concat events ++ SYN_EVENT;
             wr_error := None |}]
  end.

(** The kernel's coming answers once a batch has been emitted. *)
Definition after_batch (events : list bytes) (faults : list (option Z))
  : list (option Z) :=
  match events with
  | [] => faults
  | _ => tail faults
  end.

Section Sequences.
Context `{SetIteration}.

(** The calls the main loop makes for a sequence of reports. *)
Fixpoint process_reports (reports : list bytes) : M unit :=
  match reports with
  | [] => mret tt
  | data :: rest => process_hid_report data;; process_reports rest
  end.
End Sequences.

(** [c] keeps [P]: from a world where [P] holds it ends, normally or on
    an exception, in a world where [P] holds. *)
Definition preserves {A} (P : world → Prop) (c : M A) : Prop :=
  ∀ w, P w → P (c w).2.

(** What holds between two reports while every write succeeds: the
    device is open, no failure is coming, and the balance of [keycode]
    among the delivered events is the number of held scancodes that carry
    it. *)
Definition balanced (fd keycode : Z) (w : world) : Prop :=
  ready fd w ∧ all_writes_succeed w ∧
  key_balance keycode (delivered_events w)
    = Z.of_nat (holders keycode (prev_keys (obj w))).

(** ** Sample inputs *)

(** Left Ctrl and A held. *)
Definition report_ctrl_a : bytes := [x01; x00; x04; x00; x00; x00; x00; x00].

(** A alone, B alone, nothing. *)
Definition report_a : bytes := [x00; x00; x04; x00; x00; x00; x00; x00].
Definition report_b : bytes := [x00; x00; x05; x00; x00; x00; x00; x00].
Definition report_none : bytes := [x00; x00; x00; x00; x00; x00; x00; x00].

(** Left Shift and W held. *)
Definition report_shift_w : bytes :=
  [x02; x00; x1a; x00; x00; x00; x00; x00].

(** A scancode without a keycode. *)
Definition report_unmapped : bytes :=
  [x00; x00; x68; x00; x00; x00; x00; x00].

(** A fresh object with the device open on descriptor 3. *)
Definition sample_world : world := world_after_setup 3 [].

(** The object after [data] has been processed from [sample_world]. *)
Definition world_after (data : bytes) : world :=
  (process_hid_report (H := elements_iteration) data sample_world).2.

(** The modifier bits of [modifiers] whose keycode is [keycode], summed
    over a list of (bit, keycode) pairs. *)
Definition modifier_held_in (pairs : list (Z * Z)) (keycode modifiers : Z)
  : Z :=
  foldr (λ bk acc,
           (if decide (bk.2 = keycode) then bit_of modifiers bk.1 else 0)
           + acc)
        0 pairs.

(** How many keys the object holds down that carry [keycode]: scancodes
    of [prev_keys] and set bits of [prev_modifiers]. *)
Definition held (keycode : Z) (st : MonsGeekHID) : Z :=
  Z.of_nat (holders keycode (prev_keys st))
  + modifier_held_in MODIFIER_MAP keycode (prev_modifiers st).

(** The modifier byte of the most recent report; 0 before the first. *)
Definition last_modifiers (reports : list bytes) : Z :=
  match last reports with
  | Some data => report_modifiers data
  | None => 0
  end.

(** What holds between two calls while every write succeeds: the device
    is open, no failure is coming, and for [keycode] the delivered
    presses minus releases are the keys held that carry it. *)
Definition tallied (fd keycode : Z) (w : world) : Prop :=
  ready fd w ∧ all_writes_succeed w ∧
  key_balance keycode (delivered_events w) = held keycode (obj w).

(** [tallied], and while no device is connected nothing is held. *)
Definition settled (fd keycode : Z) (w : world) : Prop :=
  tallied fd keycode w ∧
  (hidraw_fd (obj w) = None →
   prev_keys (obj w) = ∅ ∧ prev_modifiers (obj w) = 0).

(** ** Registering the synthetic device *)

Definition UI_SET_EVBIT : Z := 0x40045564.
Definition UI_SET_KEYBIT : Z := 0x40045565.
Definition UI_DEV_CREATE : Z := 0x5501.
Definition UI_DEV_SETUP : Z := 0x405c5503.
Definition BUS_USB : Z := 0x03.

(** The third argument of [fcntl.ioctl]. *)
Inductive ioctl_arg :=
  | NoArg
  | IntArg (n : Z)
  | BytesArg (data : bytes).

Record ioctl_call := {
  io_fd : Z;
  io_request : Z;
  io_arg : ioctl_arg;
}.

#[global] Instance ioctl_arg_eq_dec : EqDecision ioctl_arg.
Proof. solve_decision. Defined.
#[global] Instance ioctl_call_eq_dec : EqDecision ioctl_call.
Proof. solve_decision. Defined.

(** [set(HID_TO_LINUX.values()) | {kc for _, kc in MODIFIER_MAP}] *)
Definition all_keys : gset Z :=
  map_img HID_TO_LINUX ∪ list_to_set MODIFIER_MAP.*2.

(** [name + b'\x00' * (80 - len(name))] *)
Definition device_name : bytes :=
  let name := String.list_byte_of_string "MonsGeek Virtual Keyboard" in
  name ++ replicate (80 - length name) x00.

(** [struct.pack("<HHHH", BUS_USB, 0x3151, 0x4015, 1) + name +
    struct.pack("<I", 0)] *)
Definition uinput_setup : bytes :=
  (le_bytes 2 BUS_USB ++ le_bytes 2 0x3151 ++ le_bytes 2 0x4015 ++
   le_bytes 2 1) ++ device_name ++ le_bytes 4 0.

(** The [fcntl.ioctl] calls of [setup_uinput] on descriptor [fd], in
    program order. *)
Definition setup_uinput_ioctls `{SetIteration} (fd : Z) : list ioctl_call :=
  [ {| io_fd := fd; io_request := UI_SET_EVBIT; io_arg := IntArg EV_SYN |};
    {| io_fd := fd; io_request := UI_SET_EVBIT; io_arg := IntArg EV_KEY |} ]
  ++ ((λ key, {| io_fd := fd; io_request := UI_SET_KEYBIT;
                 io_arg := IntArg key |}) <$> set_iter all_keys)
  ++ [ {| io_fd := fd; io_request := UI_DEV_SETUP;
          io_arg := BytesArg uinput_setup |};
       {| io_fd := fd; io_request := UI_DEV_CREATE; io_arg := NoArg |} ].

(** Making [calls] one after the other while the kernel answers with
    [answers] (an error number, or [None] for success, also once the
    list is used up): the calls made, the last of which is the one that
    failed, if any, and its error. *)
Fixpoint perform_ioctls (calls : list ioctl_call) (answers : list (option Z))
  : list ioctl_call * option Z :=
  match calls with
  | [] => ([], None)
  | call :: rest =>
      match default None (head answers) with
      | Some errno => ([call], Some errno)
      | None =>
          let '(made, failure) := perform_ioctls rest (tail answers) in
          (call :: made, failure)
      end
  end.

(** [setup_uinput], given what [os.open] and the ioctls answer: the ioctl
    calls made, and the outcome.  No exception is caught: the first
    failure leaves the method, before [self.uinput_fd] is assigned. *)
Definition setup_uinput `{SetIteration}
    (opened : open_answer) (answers : list (option Z)) (w : world)
  : list ioctl_call * (result unit * world) :=
  match opened with
  | OpenError errno => ([], (Raise (OSError errno), w))
  | Opened fd =>
      match perform_ioctls (setup_uinput_ioctls fd) answers with
      | (made, Some errno) => (made, (Raise (OSError errno), w))
      | (made, None) => (made, set_uinput_fd (Some fd) w)
      end
  end.

(** ** Locating the raw device *)

(** Whether [hay] begins with [needle]. *)
Fixpoint starts_with (needle hay : list Ascii.ascii) : bool :=
  match needle with
  | [] => true
  | a :: needle' =>
      match hay with
      | [] => false
      | b :: hay' => bool_decide (a = b) && starts_with needle' hay'
      end
  end.

(** Whether [needle] occurs in [hay] at some position. *)
Fixpoint occurs_in (needle hay : list Ascii.ascii) : bool :=
  starts_with needle hay ||
  match hay with
  | [] => false
  | _ :: hay' => occurs_in needle hay'
  end.

(** [needle in content] for two [str] values. *)
Definition str_in (needle content : string) : bool :=
  occurs_in (String.list_ascii_of_string needle)
            (String.list_ascii_of_string content).

(** What [find_hidraw] meets at [/sys/class/hidraw/<base>/device/uevent]:
    no such file, a file that cannot be opened or read (the exception is
    swallowed), or its content. *)
Inductive uevent_file :=
  | UeventMissing
  | UeventUnreadable
  | UeventContent (content : string).

(** One path returned by [glob.glob("/dev/hidraw*")]. *)
Record hidraw_node := {
  node_path : string;
  node_uevent : uevent_file;
}.

(** The two nested [if]s on the content. *)
Definition is_wired_keyboard (content : string) : bool :=
  (str_in "3151" content && str_in "4015" content) &&
  (negb (str_in "2.4G" content) && negb (str_in "4011" content)).

(** [find_hidraw], over the paths in the order [glob.glob] yields them. *)
Fixpoint find_hidraw (nodes : list hidraw_node) : option string :=
  match nodes with
  | [] => None
  | node :: rest =>
      match node_uevent node with
      | UeventContent content =>
          if is_wired_keyboard content then Some (node_path node)
          else find_hidraw rest
      | UeventMissing | UeventUnreadable => find_hidraw rest
      end
  end.

(** [needle] is a substring of [content]. *)
Definition substring (needle content : string) : Prop :=
  ∃ before after,
    String.list_ascii_of_string content =
      before ++ String.list_ascii_of_string needle ++ after.

(** A node whose uevent file can be read, names vendor 3151 and product
    4015, and carries neither of the wireless marks. *)
Definition wired_keyboard (node : hidraw_node) : Prop :=
  ∃ content,
    node_uevent node = UeventContent content ∧
    substring "3151" content ∧ substring "4015" content ∧
    ¬ substring "2.4G" content ∧ ¬ substring "4011" content.

(** The recorded state holds bytes only: a modifier byte, and scancodes
    between 1 and 255. *)
Definition state_in_range (w : world) : Prop :=
  0 ≤ prev_modifiers (obj w) < 256 ∧
  ∀ s, s ∈ prev_keys (obj w) → 0 < s < 256.

(** * Properties *)

(** ** Bytes and packed events *)

Lemma byte_to_Z_range b : 0 ≤ byte_to_Z b < 256.
Proof.
  unfold byte_to_Z. pose proof (Byte.to_N_bounded b) as Hb. lia.
Qed.

Lemma byte_to_Z_to_byte z : byte_to_Z (Z_to_byte z) = z mod 256.
Proof.
  unfold Z_to_byte, byte_to_Z.
  pose proof (Z.mod_pos_bound z 256 ltac:(lia)) as Hz.
  destruct (Byte.of_N (Z.to_N (z mod 256))) as [b|] eqn:Hb.
  - apply Byte.to_of_N in Hb. simpl. rewrite Hb. lia.
  - apply Byte.of_N_None_iff in Hb. lia.
Qed.

Lemma length_le_bytes n z : length (le_bytes n z) = n.
Proof.
  revert z. induction n as [|n IH]; intros z; simpl; [done|]. by rewrite IH.
Qed.

Lemma le_bytes_inj n z z' :
  le_bytes n z = le_bytes n z' →
  z mod 256 ^ Z.of_nat n = z' mod 256 ^ Z.of_nat n.
Proof.
  revert z z'. induction n as [|n IH]; intros z z' Heq.
  - simpl. by rewrite !Z.mod_1_r.
  - simpl in Heq. injection Heq as Hhd Htl.
    apply (f_equal byte_to_Z) in Hhd. rewrite !byte_to_Z_to_byte in Hhd.
    apply IH in Htl.
    rewrite Nat2Z.inj_succ, Z.pow_succ_r by lia.
    rewrite !Z.rem_mul_r by lia. congruence.
Qed.

Lemma length_make_key_event k v : length (make_key_event k v) = EVENT_SIZE.
Proof. reflexivity. Qed.

Lemma length_SYN_EVENT : length SYN_EVENT = EVENT_SIZE.
Proof. reflexivity. Qed.

Lemma make_key_event_inj k v k' v' :
  0 ≤ k < 65536 → 0 ≤ k' < 65536 → 0 ≤ v < 2 → 0 ≤ v' < 2 →
  make_key_event k v = make_key_event k' v' → k = k' ∧ v = v'.
Proof.
  intros Hk Hk' Hv Hv' Heq. unfold make_key_event, pack_llHHi in Heq.
  do 3 (apply app_inj_1 in Heq as [_ Heq]; [|by rewrite !length_le_bytes]).
  apply app_inj_1 in Heq as [Hc Hval]; [|by rewrite !length_le_bytes].
  apply le_bytes_inj in Hc, Hval.
  change (256 ^ Z.of_nat 2) with 65536 in Hc.
  change (256 ^ Z.of_nat 4) with 4294967296 in Hval.
  rewrite !Z.mod_small in Hc, Hval by lia. done.
Qed.

Lemma make_key_event_not_SYN k v : make_key_event k v ≠ SYN_EVENT.
Proof.
  unfold make_key_event, SYN_EVENT, pack_llHHi. intros Heq.
  do 2 (apply app_inj_1 in Heq as [_ Heq]; [|by rewrite !length_le_bytes]).
  apply app_inj_1 in Heq as [Heq _]; [|by rewrite !length_le_bytes].
  discriminate Heq.
Qed.

(** ** The tables *)

Lemma HID_TO_LINUX_items_NoDup : NoDup HID_TO_LINUX_items.*1.
Proof. apply (bool_decide_unpack _). vm_compute. reflexivity. Qed.

Lemma HID_TO_LINUX_lookup s k :
  HID_TO_LINUX !! s = Some k ↔ (s, k) ∈ HID_TO_LINUX_items.
Proof.
  unfold HID_TO_LINUX. symmetry.
  apply elem_of_list_to_map, HID_TO_LINUX_items_NoDup.
Qed.

Lemma HID_TO_LINUX_Forall (P : Z * Z → Prop) :
  Forall P HID_TO_LINUX_items →
  ∀ s k, HID_TO_LINUX !! s = Some k → P (s, k).
Proof.
  intros HP s k Hs. apply HID_TO_LINUX_lookup in Hs.
  rewrite Forall_forall in HP. exact (HP (s, k) Hs).
Qed.

Lemma bit_of_range x bit : 0 ≤ bit_of x bit < 2.
Proof.
  unfold bit_of. change 1 with (Z.ones 1). rewrite Z.land_ones by lia.
  apply Z.mod_pos_bound. lia.
Qed.

Lemma scancode_keycode_range s k :
  HID_TO_LINUX !! s = Some k → 0 ≤ k < 65536.
Proof.
  apply (HID_TO_LINUX_Forall (λ sk, 0 ≤ sk.2 < 65536)).
  apply (bool_decide_unpack _). vm_compute. reflexivity.
Qed.

Lemma modifier_keycode_range bk :
  bk ∈ MODIFIER_MAP → 0 ≤ bk.2 < 65536.
Proof.
  revert bk. apply Forall_forall.
  apply (bool_decide_unpack _). vm_compute. reflexivity.
Qed.

Lemma scancode_keycode_not_modifier s k bk :
  HID_TO_LINUX !! s = Some k → bk ∈ MODIFIER_MAP → bk.2 ≠ k.
Proof.
  intros Hs Hbk Heq.
  apply (HID_TO_LINUX_Forall (λ sk, sk.2 ∉ MODIFIER_MAP.*2)) in Hs.
  - apply Hs. change ((s, k).2) with k. rewrite <- Heq.
    apply list_elem_of_fmap. by exists bk.
  - apply (bool_decide_unpack _). vm_compute. reflexivity.
Qed.

Lemma keycode_shared_only_43 s s' k :
  HID_TO_LINUX !! s = Some k → HID_TO_LINUX !! s' = Some k → k ≠ 43 → s = s'.
Proof.
  intros Hs Hs' Hk. apply HID_TO_LINUX_lookup in Hs, Hs'.
  assert (Hall : Forall (λ a : Z * Z, Forall (λ b : Z * Z,
                   a.2 = b.2 → a.2 ≠ 43 → a.1 = b.1) HID_TO_LINUX_items)
                   HID_TO_LINUX_items).
  { apply (bool_decide_unpack _). vm_compute. reflexivity. }
  rewrite Forall_forall in Hall. specialize (Hall _ Hs).
  rewrite Forall_forall in Hall. specialize (Hall _ Hs'). by apply Hall.
Qed.

(** ** Event lists built by the loops *)

Lemma foldl_append_omap {A B} (f : A → option B)
    (g : list B → A → list B) (l : list A) (acc : list B) :
  (∀ acc a, g acc a = match f a with Some b => acc ++ [b] | None => acc end) →
  foldl g acc l = acc ++ omap f l.
Proof.
  intros Hg. revert acc. induction l as [|a l IH]; intros acc; simpl.
  - by rewrite app_nil_r.
  - rewrite IH, Hg. destruct (f a); simpl; [|done]. by rewrite <- app_assoc.
Qed.

Lemma key_changes_app value codes events :
  key_changes value codes events = events ++ key_events value codes.
Proof.
  apply foldl_append_omap. intros acc c. by destruct (HID_TO_LINUX !! c).
Qed.

Lemma modifier_changes_app prev modifiers events :
  modifier_changes prev modifiers events
  = events ++ modifier_change_events prev modifiers.
Proof.
  apply foldl_append_omap. intros acc [bit keycode]. simpl. by case_decide.
Qed.

Lemma modifier_releases_app prev events :
  modifier_releases prev events = events ++ modifier_release_events prev.
Proof.
  apply foldl_append_omap. intros acc [bit keycode]. simpl. by case_decide.
Qed.

Lemma report_events_eq `{SetIteration} s data :
  report_events s data =
    modifier_change_events (prev_modifiers s) (report_modifiers data) ++
    key_events 0 (set_iter (prev_keys s ∖ report_keys data)) ++
    key_events 1 (set_iter (report_keys data ∖ prev_keys s)).
Proof.
  unfold report_events.
  rewrite !key_changes_app, modifier_changes_app. simpl.
  by rewrite <- app_assoc.
Qed.

Lemma release_events_eq `{SetIteration} s :
  release_events s =
    key_events 0 (set_iter (prev_keys s)) ++
    modifier_release_events (prev_modifiers s).
Proof.
  unfold release_events. by rewrite modifier_releases_app, key_changes_app.
Qed.

Lemma key_events_app value l1 l2 :
  key_events value (l1 ++ l2) = key_events value l1 ++ key_events value l2.
Proof. apply omap_app. Qed.

Lemma key_events_elem value codes e :
  e ∈ key_events value codes ↔
  ∃ s k, s ∈ codes ∧ HID_TO_LINUX !! s = Some k ∧ e = make_key_event k value.
Proof.
  unfold key_events. rewrite list_elem_of_omap. split.
  - intros (s & Hs & He). destruct (HID_TO_LINUX !! s) as [k|] eqn:Hk;
      [|done]. simpl in He. exists s, k. naive_solver.
  - intros (s & k & Hs & Hk & ->). exists s. by rewrite Hk.
Qed.

Lemma modifier_change_events_elem prev modifiers e :
  e ∈ modifier_change_events prev modifiers →
  ∃ bk, bk ∈ MODIFIER_MAP ∧ e = make_key_event bk.2 (bit_of modifiers bk.1).
Proof.
  unfold modifier_change_events. rewrite list_elem_of_omap.
  intros (bk & Hbk & He). exists bk. case_decide; naive_solver.
Qed.

Lemma modifier_release_events_elem prev e :
  e ∈ modifier_release_events prev →
  ∃ bk, bk ∈ MODIFIER_MAP ∧ e = make_key_event bk.2 0.
Proof.
  unfold modifier_release_events. rewrite list_elem_of_omap.
  intros (bk & Hbk & He). exists bk. case_decide; naive_solver.
Qed.

Lemma key_events_sized value codes :
  Forall (λ e, length e = EVENT_SIZE) (key_events value codes).
Proof.
  apply Forall_forall. intros e (s & k & _ & _ & ->)%key_events_elem.
  apply length_make_key_event.
Qed.

Lemma modifier_change_events_sized prev modifiers :
  Forall (λ e, length e = EVENT_SIZE) (modifier_change_events prev modifiers).
Proof.
  apply Forall_forall. intros e (bk & _ & ->)%modifier_change_events_elem.
  apply length_make_key_event.
Qed.

Lemma modifier_release_events_sized prev :
  Forall (λ e, length e = EVENT_SIZE) (modifier_release_events prev).
Proof.
  apply Forall_forall. intros e (bk & _ & ->)%modifier_release_events_elem.
  apply length_make_key_event.
Qed.

Lemma report_events_sized `{SetIteration} s data :
  Forall (λ e, length e = EVENT_SIZE) (report_events s data).
Proof.
  rewrite report_events_eq. rewrite !Forall_app.
  auto using key_events_sized, modifier_change_events_sized.
Qed.

Lemma release_events_sized `{SetIteration} s :
  Forall (λ e, length e = EVENT_SIZE) (release_events s).
Proof.
  rewrite release_events_eq. rewrite !Forall_app.
  auto using key_events_sized, modifier_release_events_sized.
Qed.

(** ** Payloads as the device reads them *)

Lemma length_concat_sized (events : list bytes) :
  Forall (λ e, length e = EVENT_SIZE) events →
  length (concat events) = (length events * EVENT_SIZE)%nat.
Proof.
  induction 1 as [|e events He _ IH]; simpl; [done|].
  rewrite length_app, He, IH. done.
Qed.

Lemma reshape_concat_sized (events : list bytes) :
  Forall (λ e, length e = EVENT_SIZE) events →
  reshape (replicate (length events) EVENT_SIZE) (concat events) = events.
Proof.
  induction 1 as [|e events He _ IH]; simpl; [done|].
  rewrite take_app_length' by done. rewrite drop_app_length' by done.
  by rewrite IH.
Qed.

Lemma payload_events_concat (events : list bytes) :
  Forall (λ e, length e = EVENT_SIZE) events →
  payload_events (concat events) = events.
Proof.
  intros Hsz. unfold payload_events.
  rewrite length_concat_sized by done.
  rewrite Nat.div_mul by done. by apply reshape_concat_sized.
Qed.

Lemma payload_events_batch (events : list bytes) :
  Forall (λ e, length e = EVENT_SIZE) events →
  payload_events (concat events ++ SYN_EVENT) = events ++ [SYN_EVENT].
Proof.
  intros Hsz.
  replace (concat events ++ SYN_EVENT) with (concat (events ++ [SYN_EVENT])).
  - apply payload_events_concat. apply Forall_app. split; [done|].
    by repeat constructor.
  - rewrite concat_app. change (concat [SYN_EVENT]) with (SYN_EVENT ++ []).
    by rewrite app_nil_r.
Qed.

(** ** Stepping the methods *)

Lemma emit_events_nil w :
  emit_events [] w = (Ok tt, (trace_emit [] w).2).
Proof. reflexivity. Qed.

Lemma emit_events_nonempty events w :
  events ≠ [] →
  emit_events events w =
    os_write (uinput_fd (obj w)) (concat events ++ SYN_EVENT)
             (trace_emit events w).2.
Proof. by destruct events. Qed.

Lemma emit_events_obj events w : obj (emit_events events w).2 = obj w.
Proof.
  destruct events as [|e events]; [done|].
  rewrite emit_events_nonempty by done. unfold os_write. simpl.
  destruct (uinput_fd (obj w)); [|done].
  by destruct (default None (head (write_faults w))).
Qed.

Lemma emit_events_trace events w :
  emit_calls (emit_events events w).2 = emit_calls w ++ [events].
Proof.
  destruct events as [|e events]; [done|].
  rewrite emit_events_nonempty by done. unfold os_write. simpl.
  destruct (uinput_fd (obj w)); [|done].
  by destruct (default None (head (write_faults w))).
Qed.

Lemma process_hid_report_short `{SetIteration} data w :
  (length data < 8)%nat → process_hid_report data w = (Ok tt, w).
Proof. intros Hlen. unfold process_hid_report. by rewrite decide_True. Qed.

Lemma process_hid_report_run `{SetIteration} data w :
  (8 ≤ length data)%nat →
  process_hid_report data w =
    match emit_events (report_events (obj w) data) w with
    | (Ok _, w') =>
        (set_prev_modifiers (report_modifiers data);;
         set_prev_keys (report_keys data)) w'
    | (Raise e, w') => (Raise e, w')
    end.
Proof.
  intros Hlen. unfold process_hid_report.
  rewrite decide_False by lia. reflexivity.
Qed.

Lemma release_all_keys_run `{SetIteration} w :
  release_all_keys w =
    match emit_events (release_events (obj w)) w with
    | (Ok _, w') => (set_prev_modifiers 0;; set_prev_keys ∅) w'
    | (Raise e, w') => (Raise e, w')
    end.
Proof. reflexivity. Qed.

Lemma emit_events_ok events w fd :
  ready fd w → next_write_succeeds w →
  emit_events events w =
    (Ok tt, {| obj := obj w;
               writes := writes w ++ batch_write fd events;
               write_faults := after_batch events (write_faults w);
               closed := closed w;
               emit_calls := emit_calls w ++ [events] |}).
Proof.
  unfold ready, next_write_succeeds. intros Hfd Hok.
  destruct events as [|e events].
  - rewrite emit_events_nil. simpl. by rewrite app_nil_r.
  - rewrite emit_events_nonempty by done. unfold os_write. simpl.
    rewrite Hfd. simpl. by rewrite Hok.
Qed.

Lemma process_hid_report_ok `{SetIteration} data w fd :
  ready fd w → next_write_succeeds w → (8 ≤ length data)%nat →
  process_hid_report data w =
    (Ok tt,
     {| obj := {| uinput_fd := uinput_fd (obj w);
                  hidraw_fd := hidraw_fd (obj w);
                  prev_modifiers := report_modifiers data;
                  prev_keys := report_keys data |};
        writes := writes w ++ batch_write fd (report_events (obj w) data);
        write_faults :=
          after_batch (report_events (obj w) data) (write_faults w);
        closed := closed w;
        emit_calls := emit_calls w ++ [report_events (obj w) data] |}).
Proof.
  intros Hfd Hok Hlen. rewrite process_hid_report_run by done.
  by rewrite (emit_events_ok _ _ fd).
Qed.

Lemma release_all_keys_ok `{SetIteration} w fd :
  ready fd w → next_write_succeeds w →
  release_all_keys w =
    (Ok tt,
     {| obj := {| uinput_fd := uinput_fd (obj w);
                  hidraw_fd := hidraw_fd (obj w);
                  prev_modifiers := 0;
                  prev_keys := ∅ |};
        writes := writes w ++ batch_write fd (release_events (obj w));
        write_faults := after_batch (release_events (obj w)) (write_faults w);
        closed := closed w;
        emit_calls := emit_calls w ++ [release_events (obj w)] |}).
Proof.
  intros Hfd Hok. rewrite release_all_keys_run.
  by rewrite (emit_events_ok _ _ fd).
Qed.

Lemma all_writes_succeed_next w : all_writes_succeed w → next_write_succeeds w.
Proof.
  unfold all_writes_succeed, next_write_succeeds.
  destruct (write_faults w) as [|a l]; [done|]. by inversion 1.
Qed.

Lemma all_writes_succeed_after events faults :
  Forall (λ answer : option Z, answer = None) faults →
  Forall (λ answer : option Z, answer = None) (after_batch events faults).
Proof.
  intros Hf. destruct events; [done|]. simpl.
  destruct faults; [done|]. by inversion Hf.
Qed.

(** ** The event sink *)

(** C5: [emit_events] on an empty list makes no [os.write] call at all;
    on a non-empty list it makes exactly one, on the synthetic device's
    descriptor, whose payload is the events joined and then SYN_EVENT once:
    read back as [input_event] structs it is the events followed by a
    single SYN_EVENT. *)
Theorem emit_events_single_write (events : list bytes) (w : world) (fd : Z) :
  ready fd w →
  (events = [] →
     (emit_events events w).1 = Ok tt ∧
     writes (emit_events events w).2 = writes w) ∧
  (events ≠ [] →
     ∃ answer,
       writes (emit_events events w).2 =
         writes w ++ [{| wr_fd := fd;
                         wr_data := concat events ++ SYN_EVENT;
                         wr_error := answer |}] ∧
       (emit_events events w).1 =
         match answer with
         | None => Ok tt
         | Some errno => Raise (OSError errno)
         end) ∧
  (Forall (λ e, length e = EVENT_SIZE) events →
     payload_events (concat events ++ SYN_EVENT) = events ++ [SYN_EVENT]).
Proof.
  unfold ready. intros Hfd. split; [|split].
  - intros ->. by rewrite emit_events_nil.
  - intros Hne. rewrite emit_events_nonempty by done.
    unfold os_write. simpl. rewrite Hfd.
    exists (default None (head (write_faults w))).
    by destruct (default None (head (write_faults w))).
  - apply payload_events_batch.
Qed.

(** ** Malformed reports *)

(** C6: a report shorter than 8 bytes leaves the object and everything
    around it as they were: [prev_modifiers] and [prev_keys] unchanged, no
    call of [emit_events] added to the trace, no write; the inner loop of
    [run] does not even call [process_hid_report] for it. *)
Theorem short_report_ignored `{SetIteration} (data : bytes) (w : world) :
  (length data < 8)%nat →
  process_hid_report data w = (Ok tt, w) ∧
  prev_modifiers (obj (process_hid_report data w).2) = prev_modifiers (obj w) ∧
  prev_keys (obj (process_hid_report data w).2) = prev_keys (obj w) ∧
  emit_calls (process_hid_report data w).2 = emit_calls w ∧
  writes (process_hid_report data w).2 = writes w ∧
  drain_step (ReadData data) w = (Ok Continue, w).
Proof.
  intros Hlen. rewrite process_hid_report_short by done.
  repeat split. unfold drain_step, try_except. simpl.
  unfold mbind, M_bind. simpl. by rewrite decide_False by lia.
Qed.

(** ** The translation of one report *)

Lemma set_iter_empty `{SetIteration} : iteration_ok → set_iter ∅ = [].
Proof.
  intros Hok. apply Permutation_nil_r. rewrite (Hok ∅).
  by rewrite elements_empty.
Qed.

Lemma set_iter_elem `{SetIteration} (K : gset Z) x :
  iteration_ok → x ∈ set_iter K ↔ x ∈ K.
Proof. intros Hok. rewrite (Hok K). apply elem_of_elements. Qed.

Lemma modifier_change_events_same m : modifier_change_events m m = [].
Proof.
  unfold modifier_change_events.
  induction MODIFIER_MAP as [|bk l IH]; simpl; [done|].
  by rewrite decide_False by (intros Hne; by apply Hne).
Qed.

Lemma process_hid_report_obj `{SetIteration} data w w1 :
  (8 ≤ length data)%nat →
  process_hid_report data w = (Ok tt, w1) →
  obj w1 = {| uinput_fd := uinput_fd (obj w); hidraw_fd := hidraw_fd (obj w);
              prev_modifiers := report_modifiers data;
              prev_keys := report_keys data |}.
Proof.
  intros Hlen. rewrite process_hid_report_run by done.
  pose proof (emit_events_obj (report_events (obj w) data) w) as Hobj.
  destruct (emit_events (report_events (obj w) data) w) as [[[]|e] w'];
    [|done].
  intros [= <-]. simpl in *. by rewrite Hobj.
Qed.

Lemma slice_lookup_eq (d1 d2 : bytes) :
  (∀ i, (2 ≤ i < 8)%nat → d1 !! i = d2 !! i) → slice 2 8 d1 = slice 2 8 d2.
Proof.
  intros Heq. unfold slice. apply list_eq. intros i.
  destruct (decide (i < 6)%nat) as [Hi|Hi].
  - rewrite !lookup_take_lt by lia. rewrite !lookup_drop. apply Heq. lia.
  - rewrite !lookup_take_ge by lia. done.
Qed.

Lemma report_modifiers_lookup (d1 d2 : bytes) :
  d1 !! 0%nat = d2 !! 0%nat → report_modifiers d1 = report_modifiers d2.
Proof. destruct d1, d2; simpl; congruence. Qed.

Lemma report_keys_elem data z :
  z ∈ report_keys data ↔ z ≠ 0 ∧ z ∈ byte_to_Z <$> slice 2 8 data.
Proof. unfold report_keys. set_solver. Qed.

Lemma key_events_Permutation value l1 l2 :
  l1 ≡ₚ l2 → key_events value l1 ≡ₚ key_events value l2.
Proof. unfold key_events. by intros ->. Qed.

(** C9: once a well-formed report has been processed, processing the
    identical report again hands an empty event list to [emit_events],
    makes no write, and leaves the object, [prev_modifiers] and
    [prev_keys] included, exactly as the first call left it. *)
Theorem repeated_report_idempotent `{SetIteration}
    (data : bytes) (w w1 : world) :
  iteration_ok →
  (8 ≤ length data)%nat →
  process_hid_report data w = (Ok tt, w1) →
  ∃ w2,
    process_hid_report data w1 = (Ok tt, w2) ∧
    emit_calls w2 = emit_calls w1 ++ [[]] ∧
    writes w2 = writes w1 ∧
    obj w2 = obj w1.
Proof.
  intros Hok Hlen Hfirst.
  pose proof (process_hid_report_obj _ _ _ Hlen Hfirst) as Hobj.
  assert (Hev : report_events (obj w1) data = []).
  { rewrite report_events_eq, Hobj. simpl.
    rewrite modifier_change_events_same, difference_diag_L.
    by rewrite set_iter_empty. }
  rewrite process_hid_report_run by done. rewrite Hev, emit_events_nil.
  eexists. split; [reflexivity|]. simpl. repeat split.
  by rewrite Hobj.
Qed.

(** C10: two well-formed reports that agree on byte 0 and on bytes 2 to 7
    are processed identically from any state: same outcome, same events,
    same writes, same new [prev_modifiers] and [prev_keys]; byte 1 and the
    bytes from index 8 on are never looked at.  Moreover the slots count
    only as the set of their nonzero values: two reports with the same
    byte 0 whose slots hold the same nonzero values, in whatever
    positions and however often, give the same new state and the same
    events up to their order. *)
Theorem report_reads_bytes_0_and_2_to_7 `{SetIteration}
    (d1 d2 : bytes) (w : world) :
  (8 ≤ length d1)%nat → (8 ≤ length d2)%nat →
  d1 !! 0%nat = d2 !! 0%nat →
  ((∀ i, (2 ≤ i < 8)%nat → d1 !! i = d2 !! i) →
     report_events (obj w) d1 = report_events (obj w) d2 ∧
     process_hid_report d1 w = process_hid_report d2 w) ∧
  ((∀ z, z ≠ 0 →
      z ∈ byte_to_Z <$> slice 2 8 d1 ↔ z ∈ byte_to_Z <$> slice 2 8 d2) →
     report_keys d1 = report_keys d2 ∧
     report_modifiers d1 = report_modifiers d2 ∧
     report_events (obj w) d1 ≡ₚ report_events (obj w) d2).
Proof.
  intros Hl1 Hl2 H0. apply report_modifiers_lookup in H0. split.
  - intros Hslots. apply slice_lookup_eq in Hslots.
    assert (Hk : report_keys d1 = report_keys d2).
    { unfold report_keys. by rewrite Hslots. }
    assert (He : report_events (obj w) d1 = report_events (obj w) d2).
    { unfold report_events. by rewrite H0, Hk. }
    split; [done|]. rewrite !process_hid_report_run by done.
    by rewrite He, H0, Hk.
  - intros Hset.
    assert (Hk : report_keys d1 = report_keys d2).
    { apply set_eq. intros z. rewrite !report_keys_elem. naive_solver. }
    split; [done|]. split; [done|].
    unfold report_events. by rewrite H0, Hk.
Qed.

Lemma omap_cons_eq {A B} (f : A → option B) (a : A) (l : list A) :
  omap f (a :: l) =
    match f a with Some b => b :: omap f l | None => omap f l end.
Proof. reflexivity. Qed.

Lemma omap_filter_skip {A B} (f : A → option B) (P : A → Prop)
    `{∀ x, Decision (P x)} (l : list A) :
  (∀ x, ¬ P x → f x = None) → omap f (filter P l) = omap f l.
Proof.
  intros Hf. induction l as [|a l IH]; [done|].
  rewrite filter_cons. destruct (decide (P a)) as [Ha|Ha].
  - by rewrite !omap_cons_eq, IH.
  - by rewrite omap_cons_eq, (Hf a Ha), IH.
Qed.

Lemma key_events_skip_unmapped value codes s :
  HID_TO_LINUX !! s = None →
  key_events value (filter (λ c, c ≠ s) codes) = key_events value codes.
Proof.
  intros Hs. apply omap_filter_skip.
  intros c Hc. apply dec_stable in Hc. rewrite Hc, Hs. reflexivity.
Qed.

Lemma elem_of_split_mid {A} (x : A) (l : list A) :
  x ∈ l → ∃ l1 l2, l = l1 ++ x :: l2.
Proof. apply list_elem_of_split. Qed.


(** C8: a scancode without an entry in [HID_TO_LINUX] is kept in
    [prev_keys] like any other: after a well-formed report [prev_keys] is
    the set of all nonzero slot values, with or without a keycode.  It
    contributes no event: the events of a report and those of
    [release_all_keys] are the same lists when the scancode is skipped in
    every loop over a set, and every event in them carries the keycode of
    a modifier or of a scancode that has one. *)
Theorem unmapped_scancode_tracked_silent `{SetIteration}
    (s : Z) (data : bytes) (w w1 : world) :
  HID_TO_LINUX !! s = None →
  (8 ≤ length data)%nat →
  process_hid_report data w = (Ok tt, w1) →
  prev_keys (obj w1) = report_keys data ∧
  (s ≠ 0 → s ∈ byte_to_Z <$> slice 2 8 data → s ∈ prev_keys (obj w1)) ∧
  report_events (obj w) data =
    modifier_change_events (prev_modifiers (obj w)) (report_modifiers data) ++
    key_events 0 (filter (λ c, c ≠ s)
                    (set_iter (prev_keys (obj w) ∖ report_keys data))) ++
    key_events 1 (filter (λ c, c ≠ s)
                    (set_iter (report_keys data ∖ prev_keys (obj w)))) ∧
  release_events (obj w1) =
    key_events 0 (filter (λ c, c ≠ s) (set_iter (prev_keys (obj w1)))) ++
    modifier_release_events (prev_modifiers (obj w1)) ∧
  ∀ e, e ∈ report_events (obj w) data ++ release_events (obj w1) →
    ∃ k v, e = make_key_event k v ∧
      ((∃ bit, (bit, k) ∈ MODIFIER_MAP) ∨
       (∃ s', s' ≠ s ∧ HID_TO_LINUX !! s' = Some k)).
Proof.
  intros Hs Hlen Hrun.
  pose proof (process_hid_report_obj _ _ _ Hlen Hrun) as Hobj.
  split; [by rewrite Hobj|]. split.
  { intros Hnz Hin. rewrite Hobj. simpl. by apply report_keys_elem. }
  split.
  { by rewrite report_events_eq, !key_events_skip_unmapped. }
  split.
  { by rewrite release_events_eq, key_events_skip_unmapped. }
  intros e. rewrite report_events_eq, release_events_eq.
  rewrite !elem_of_app.
  assert (Hkey : ∀ v codes, e ∈ key_events v codes →
            ∃ k v, e = make_key_event k v ∧
              ((∃ bit, (bit, k) ∈ MODIFIER_MAP) ∨
               (∃ s', s' ≠ s ∧ HID_TO_LINUX !! s' = Some k))).
  { intros v codes (s' & k & _ & Hk & ->)%key_events_elem.
    exists k, v. split; [done|]. right. exists s'. split; [|done].
    intros ->. congruence. }
  intros [[Hm|[Hr|Hp]]|[Hr|Hm]]; eauto.
  - apply modifier_change_events_elem in Hm as ([bit k] & Hbk & ->).
    eexists k, _. split; [done|]. left. by exists bit.
  - apply modifier_release_events_elem in Hm as ([bit k] & Hbk & ->).
    eexists k, _. split; [done|]. left. by exists bit.
Qed.

(** ** The rollover bound *)

Lemma size_list_to_set_le (l : list Z) :
  (size (list_to_set l : gset Z) ≤ length l)%nat.
Proof.
  induction l as [|x l IH].
  - rewrite list_to_set_nil, size_empty. done.
  - rewrite list_to_set_cons, size_union_alt, size_singleton. simpl.
    pose proof (subseteq_size (list_to_set l ∖ {[x]}) (list_to_set l : gset Z)
                  ltac:(set_solver)).
    lia.
Qed.

Lemma size_report_keys data : (size (report_keys data) ≤ 6)%nat.
Proof.
  unfold report_keys. set (l := byte_to_Z <$> slice 2 8 data).
  assert (Hsub : list_to_set l ∖ {[0]} ⊆ (list_to_set l : gset Z))
    by set_solver.
  apply subseteq_size in Hsub.
  pose proof (size_list_to_set_le l) as Hle.
  assert (Hlen : (length l ≤ 6)%nat).
  { unfold l, slice. rewrite length_fmap, length_take. lia. }
  lia.
Qed.

Section Preservation.
Context (P : world → Prop).

Lemma preserves_ret {A} (a : A) : preserves P (mret a).
Proof. by intros w Hw. Qed.

Lemma preserves_raise {A} (e : exn) : preserves P (@raise A e).
Proof. by intros w Hw. Qed.

Lemma preserves_get_self : preserves P get_self.
Proof. by intros w Hw. Qed.

Lemma preserves_bind {A B} (c : M A) (f : A → M B) :
  preserves P c → (∀ a, preserves P (f a)) → preserves P (c ≫= f).
Proof.
  intros Hc Hf w Hw. unfold mbind, M_bind.
  specialize (Hc w Hw). destruct (c w) as [[a|e] w']; [|done].
  by apply Hf.
Qed.

Lemma preserves_try_except {A} (body : M A) handler :
  preserves P body →
  (∀ e h, handler e = Some h → preserves P h) →
  preserves P (try_except body handler).
Proof.
  intros Hb Hh w Hw. unfold try_except.
  specialize (Hb w Hw). destruct (body w) as [[a|e] w']; [done|].
  destruct (handler e) as [h|] eqn:He; [|done]. by eapply Hh.
Qed.

Lemma preserves_try_finally {A} (body : M A) cleanup :
  preserves P body → preserves P cleanup →
  preserves P (try_finally body cleanup).
Proof.
  intros Hb Hc w Hw. unfold try_finally.
  specialize (Hb w Hw). destruct (body w) as [[a|e] w'];
    specialize (Hc w' Hb); by destruct (cleanup w') as [[?|?] ?].
Qed.
End Preservation.

Lemma rollover_modify (f : world → world) :
  (∀ w, rollover_ok w → rollover_ok (f w)) → preserves rollover_ok (modify f).
Proof. intros Hf w Hw. by apply Hf. Qed.

Lemma rollover_os_write fd data : preserves rollover_ok (os_write fd data).
Proof.
  intros w Hw. unfold os_write. destruct fd; [|done].
  by destruct (default None (head (write_faults w))).
Qed.

Lemma rollover_emit_events events : preserves rollover_ok (emit_events events).
Proof.
  intros w Hw. unfold rollover_ok. by rewrite emit_events_obj.
Qed.

Lemma rollover_set_prev_keys K :
  (size K ≤ 6)%nat → preserves rollover_ok (set_prev_keys K).
Proof. intros HK. by apply rollover_modify. Qed.

Lemma rollover_set_prev_modifiers m :
  preserves rollover_ok (set_prev_modifiers m).
Proof. by apply rollover_modify. Qed.

Lemma rollover_set_hidraw_fd v : preserves rollover_ok (set_hidraw_fd v).
Proof. by apply rollover_modify. Qed.

Lemma rollover_set_uinput_fd v : preserves rollover_ok (set_uinput_fd v).
Proof. by apply rollover_modify. Qed.

Lemma rollover_os_close fd : preserves rollover_ok (os_close_quietly fd).
Proof. by apply rollover_modify. Qed.

Lemma size_empty_le : (size (∅ : gset Z) ≤ 6)%nat.
Proof. rewrite size_empty. lia. Qed.

Section Rollover.
Context `{SetIteration}.

Lemma rollover_process_hid_report data :
  preserves rollover_ok (process_hid_report data).
Proof.
  unfold process_hid_report. case_decide; [apply preserves_ret|].
  apply preserves_bind; [apply preserves_get_self|]. intros s.
  apply preserves_bind; [apply rollover_emit_events|]. intros _.
  apply preserves_bind; [apply rollover_set_prev_modifiers|]. intros _.
  apply rollover_set_prev_keys, size_report_keys.
Qed.

Lemma rollover_release_all_keys : preserves rollover_ok release_all_keys.
Proof.
  unfold release_all_keys.
  apply preserves_bind; [apply preserves_get_self|]. intros s.
  apply preserves_bind; [apply rollover_emit_events|]. intros _.
  apply preserves_bind; [apply rollover_set_prev_modifiers|]. intros _.
  apply rollover_set_prev_keys, size_empty_le.
Qed.

Lemma rollover_disconnect_hidraw : preserves rollover_ok disconnect_hidraw.
Proof.
  unfold disconnect_hidraw.
  apply preserves_bind; [apply preserves_get_self|]. intros s.
  destruct (hidraw_fd s); [|apply preserves_ret].
  apply preserves_bind; [apply rollover_os_close|]. intros _.
  apply preserves_bind; [apply rollover_set_hidraw_fd|]. intros _.
  apply rollover_release_all_keys.
Qed.

Lemma rollover_connect_hidraw found opened :
  preserves rollover_ok (connect_hidraw found opened).
Proof.
  unfold connect_hidraw. destruct found; [|apply preserves_ret].
  destruct opened; [|apply preserves_ret].
  apply preserves_bind; [apply rollover_set_hidraw_fd|]. intros _.
  apply preserves_bind; [apply rollover_set_prev_modifiers|]. intros _.
  apply preserves_bind; [|intros _; apply preserves_ret].
  apply rollover_set_prev_keys, size_empty_le.
Qed.

Lemma rollover_drain_step r : preserves rollover_ok (drain_step r).
Proof.
  unfold drain_step. apply preserves_try_except.
  - apply preserves_bind.
    + destruct r; [apply preserves_ret|apply preserves_raise].
    + intros data. apply preserves_bind; [|intros ?; apply preserves_ret].
      case_decide; [apply rollover_process_hid_report|apply preserves_ret].
  - intros e h. destruct (is_BlockingIOError e); [|done].
    intros [= <-]. apply preserves_ret.
Qed.

Lemma rollover_drain reads : preserves rollover_ok (drain reads).
Proof.
  induction reads as [|r reads IH]; simpl; [apply preserves_ret|].
  apply preserves_bind; [apply rollover_drain_step|].
  intros []; [done|apply preserves_ret].
Qed.

Lemma rollover_poll_device readable reads :
  preserves rollover_ok (poll_device readable reads).
Proof.
  unfold poll_device. apply preserves_try_except.
  - destruct readable; [apply rollover_drain|apply preserves_ret].
  - intros [errno|] h; [|done]. intros [= <-].
    repeat case_decide;
      [apply rollover_disconnect_hidraw|apply preserves_raise
      |apply preserves_ret].
Qed.

Lemma rollover_run_iteration env :
  preserves rollover_ok (run_iteration env).
Proof.
  unfold run_iteration.
  apply preserves_bind; [apply preserves_get_self|]. intros s.
  apply preserves_bind.
  - destruct (hidraw_fd s);
      [apply preserves_ret|apply rollover_connect_hidraw].
  - intros []; [apply rollover_poll_device|apply preserves_ret].
Qed.

Lemma rollover_run_loop envs : preserves rollover_ok (run_loop envs).
Proof.
  induction envs as [|env envs IH]; simpl; [apply preserves_ret|].
  apply preserves_bind; [apply rollover_run_iteration|]. by intros _.
Qed.

Lemma rollover_run fd envs : preserves rollover_ok (run fd envs).
Proof.
  unfold run. apply preserves_bind; [apply rollover_set_uinput_fd|].
  intros _. apply preserves_try_finally; [apply rollover_run_loop|].
  apply preserves_bind; [apply rollover_disconnect_hidraw|]. intros _.
  apply preserves_bind; [apply preserves_get_self|]. intros s.
  destruct (uinput_fd s); [apply rollover_os_close|apply preserves_ret].
Qed.
End Rollover.

(** C7: at most six scancodes are tracked at any time.  The bound holds
    for a fresh object; a successful [connect_hidraw] resets [prev_keys]
    to the empty set; every report leaves at most six scancodes whatever
    its bytes, and [process_hid_report], [release_all_keys],
    [connect_hidraw] and [disconnect_hidraw] keep the bound whether they
    return or raise; so it holds after any number of iterations of the
    main loop and at the end of [run]. *)
Theorem rollover_bound_always `{SetIteration} :
  (∀ faults, rollover_ok (initial_world faults)) ∧
  (∀ fd w, prev_keys (obj (connect_hidraw true (Opened fd) w).2) = ∅) ∧
  (∀ data, (size (report_keys data) ≤ 6)%nat) ∧
  (∀ data w, rollover_ok w → rollover_ok (process_hid_report data w).2) ∧
  (∀ w, rollover_ok w → rollover_ok (release_all_keys w).2) ∧
  (∀ found opened w,
     rollover_ok w → rollover_ok (connect_hidraw found opened w).2) ∧
  (∀ w, rollover_ok w → rollover_ok (disconnect_hidraw w).2) ∧
  (∀ envs w, rollover_ok w → rollover_ok (run_loop envs w).2) ∧
  (∀ fd envs faults, rollover_ok (run fd envs (initial_world faults)).2).
Proof.
  assert (Hinit : ∀ faults, rollover_ok (initial_world faults)).
  { intros faults. unfold rollover_ok. simpl. apply size_empty_le. }
  split; [done|]. split; [done|]. split; [apply size_report_keys|].
  split; [intros data; apply rollover_process_hid_report|].
  split; [apply rollover_release_all_keys|].
  split; [intros found opened; apply rollover_connect_hidraw|].
  split; [apply rollover_disconnect_hidraw|].
  split; [intros envs; apply rollover_run_loop|].
  intros fd envs faults. by apply rollover_run.
Qed.

(** ** The full release *)

Lemma length_key_events value codes :
  length (key_events value codes) =
    length (filter (λ s, is_Some (HID_TO_LINUX !! s)) codes).
Proof.
  unfold key_events. induction codes as [|c codes IH]; [done|].
  rewrite omap_cons_eq, filter_cons.
  destruct (HID_TO_LINUX !! c) as [k|] eqn:Hk.
  - rewrite decide_True by eauto. cbn [fmap option_fmap option_map].
    cbn [length]. by rewrite IH.
  - rewrite decide_False by (by intros [? ?]). exact IH.
Qed.

Lemma length_modifier_release_events prev :
  length (modifier_release_events prev) =
    length (filter (λ bk : Z * Z, bit_of prev bk.1 ≠ 0) MODIFIER_MAP).
Proof.
  unfold modifier_release_events.
  induction MODIFIER_MAP as [|bk l IH]; [done|].
  rewrite omap_cons_eq, filter_cons. case_decide; simpl; by rewrite IH.
Qed.

Lemma modifier_release_events_zero : modifier_release_events 0 = [].
Proof. reflexivity. Qed.


(** ** Counting presses and releases *)

Lemma length_filter_absent {A} (P : A → Prop) `{∀ x, Decision (P x)}
    (l : list A) :
  (∀ x, x ∈ l → ¬ P x) → length (filter P l) = 0%nat.
Proof.
  intros Hl. induction l as [|a l IH]; [done|].
  rewrite filter_cons, decide_False by (apply Hl; left).
  apply IH. intros x Hx. apply Hl. by right.
Qed.

Lemma length_filter_omap {A B} `{EqDecision B} (f : A → option B) (x : B)
    (P : A → Prop) `{∀ a, Decision (P a)} (l : list A) :
  (∀ a, f a = Some x ↔ P a) →
  length (filter (λ b, b = x) (omap f l)) = length (filter P l).
Proof.
  intros Hf. induction l as [|a l IH]; [done|].
  rewrite omap_cons_eq, (filter_cons P).
  destruct (f a) as [y|] eqn:Hy.
  - rewrite filter_cons. destruct (decide (y = x)) as [->|Hne].
    + rewrite decide_True by (by apply Hf). cbn [length]. by rewrite IH.
    + rewrite decide_False; [done|]. intros Ha%Hf. congruence.
  - rewrite decide_False; [done|]. intros Ha%Hf. congruence.
Qed.

Lemma length_filter_unique {A} `{EqDecision A} (P : A → Prop)
    `{∀ a, Decision (P a)} (s : A) (l : list A) :
  NoDup l → (∀ a, P a ↔ a = s) →
  length (filter P l) = if decide (s ∈ l) then 1%nat else 0%nat.
Proof.
  intros Hnd HP. induction Hnd as [|a l Ha Hnd IH].
  - rewrite decide_False by (by intros ?%elem_of_nil). done.
  - rewrite filter_cons. destruct (decide (P a)) as [Hpa|Hpa].
    + apply HP in Hpa as ->. rewrite decide_True by left.
      cbn [length]. rewrite IH. by rewrite decide_False.
    + rewrite IH. assert (a ≠ s) by (intros ->; by apply Hpa, HP).
      destruct (decide (s ∈ l)) as [Hin|Hin].
      * rewrite decide_True by (by right). done.
      * rewrite decide_False; [done|]. by intros [->|?]%elem_of_cons.
Qed.

Lemma key_balance_app k l1 l2 :
  key_balance k (l1 ++ l2) = key_balance k l1 + key_balance k l2.
Proof. unfold key_balance. rewrite !filter_app, !length_app. lia. Qed.

Lemma key_balance_nil k : key_balance k [] = 0.
Proof. reflexivity. Qed.

Lemma key_balance_SYN k : key_balance k [SYN_EVENT] = 0.
Proof.
  unfold key_balance.
  rewrite !length_filter_absent; [done| |];
    intros x ->%list_elem_of_singleton Heq; symmetry in Heq;
    by apply make_key_event_not_SYN in Heq.
Qed.

Lemma key_events_count value value' codes s k :
  HID_TO_LINUX !! s = Some k →
  0 ≤ value < 2 → 0 ≤ value' < 2 →
  length (filter (λ e, e = make_key_event k value') (key_events value codes))
  = if decide (value = value')
    then length (filter (λ c, HID_TO_LINUX !! c = Some k) codes)
    else 0%nat.
Proof.
  intros Hs Hv Hv'. pose proof (scancode_keycode_range _ _ Hs) as Hk.
  unfold key_events. case_decide as Hvv.
  - subst value'. apply length_filter_omap. intros c.
    destruct (HID_TO_LINUX !! c) as [k'|] eqn:Hc; [|by split].
    cbn [fmap option_fmap option_map]. split.
    + intros Heq. apply (inj Some) in Heq.
      pose proof (scancode_keycode_range _ _ Hc) as Hk'.
      apply make_key_event_inj in Heq as [-> _]; done.
    + by intros [= ->].
  - apply length_filter_absent. intros e He Heq. subst e.
    apply list_elem_of_omap in He as (c & _ & He).
    destruct (HID_TO_LINUX !! c) as [k'|] eqn:Hc; [|done].
    cbn [fmap option_fmap option_map] in He. apply (inj Some) in He.
    rename He into Heq.
    pose proof (scancode_keycode_range _ _ Hc) as Hk'.
    apply make_key_event_inj in Heq as [_ ?]; done.
Qed.

Lemma key_balance_key_events value codes s k :
  HID_TO_LINUX !! s = Some k → value = 0 ∨ value = 1 →
  key_balance k (key_events value codes) =
    (2 * value - 1) *
    Z.of_nat (length (filter (λ c, HID_TO_LINUX !! c = Some k) codes)).
Proof.
  intros Hs Hv. unfold key_balance.
  rewrite !(key_events_count _ _ _ s) by (done || lia).
  destruct Hv as [-> | ->].
  - rewrite decide_False, decide_True by done. lia.
  - rewrite decide_True, decide_False by done. lia.
Qed.

Lemma key_balance_modifier_change_events prev modifiers s k :
  HID_TO_LINUX !! s = Some k →
  key_balance k (modifier_change_events prev modifiers) = 0.
Proof.
  intros Hs. pose proof (scancode_keycode_range _ _ Hs) as Hk.
  unfold key_balance.
  rewrite !length_filter_absent; [done| |];
    intros e (bk & Hbk & ->)%modifier_change_events_elem Heq;
    pose proof (modifier_keycode_range _ Hbk);
    pose proof (bit_of_range modifiers bk.1);
    apply make_key_event_inj in Heq as [Heq _]; try done;
    by apply (scancode_keycode_not_modifier _ _ _ Hs Hbk).
Qed.

Lemma key_balance_modifier_release_events prev s k :
  HID_TO_LINUX !! s = Some k →
  key_balance k (modifier_release_events prev) = 0.
Proof.
  intros Hs. pose proof (scancode_keycode_range _ _ Hs) as Hk.
  unfold key_balance.
  rewrite !length_filter_absent; [done| |];
    intros e (bk & Hbk & ->)%modifier_release_events_elem Heq;
    pose proof (modifier_keycode_range _ Hbk);
    apply make_key_event_inj in Heq as [Heq _]; try done;
    by apply (scancode_keycode_not_modifier _ _ _ Hs Hbk).
Qed.

Lemma holders_iter `{SetIteration} k (K : gset Z) :
  iteration_ok →
  length (filter (λ c, HID_TO_LINUX !! c = Some k) (set_iter K)) = holders k K.
Proof. intros Hok. unfold holders. by rewrite (Hok K). Qed.

Lemma holders_split k (X Y : gset Z) :
  holders k X = (holders k (X ∖ Y) + holders k (X ∩ Y))%nat.
Proof.
  unfold holders.
  assert (HX : X = (X ∖ Y) ∪ (X ∩ Y)).
  { apply set_eq. intros x. destruct (decide (x ∈ Y)); set_solver. }
  rewrite HX at 1. rewrite elements_disj_union by set_solver.
  by rewrite filter_app, length_app.
Qed.

Lemma holders_empty k : holders k ∅ = 0%nat.
Proof. unfold holders. by rewrite elements_empty. Qed.

Lemma holders_unique s k (K : gset Z) :
  HID_TO_LINUX !! s = Some k → k ≠ 43 →
  holders k K = if decide (s ∈ K) then 1%nat else 0%nat.
Proof.
  intros Hs Hk. unfold holders.
  rewrite (length_filter_unique _ s).
  - destruct (decide (s ∈ K)) as [Hin|Hin].
    + rewrite decide_True; [done|]. by apply elem_of_elements.
    + rewrite decide_False; [done|]. by rewrite elem_of_elements.
  - apply NoDup_elements.
  - intros c. split.
    + intros Hc. by apply (keycode_shared_only_43 c s k).
    + by intros ->.
Qed.

Lemma key_balance_report_events `{SetIteration} st data s k :
  iteration_ok → HID_TO_LINUX !! s = Some k →
  key_balance k (report_events st data) =
    Z.of_nat (holders k (report_keys data)) -
    Z.of_nat (holders k (prev_keys st)).
Proof.
  intros Hok Hs. rewrite report_events_eq, !key_balance_app.
  rewrite (key_balance_modifier_change_events _ _ s) by done.
  rewrite !(key_balance_key_events _ _ s) by auto.
  rewrite !holders_iter by done.
  rewrite (holders_split k (report_keys data) (prev_keys st)).
  rewrite (holders_split k (prev_keys st) (report_keys data)).
  assert (Hc : prev_keys st ∩ report_keys data
               = report_keys data ∩ prev_keys st).
  { apply set_eq. intros x. rewrite !elem_of_intersection. tauto. }
  rewrite Hc. lia.
Qed.

Lemma delivered_events_app_writes w w' calls :
  writes w' = writes w ++ calls →
  delivered_events w' =
    delivered_events w ++
    concat (payload_events <$>
              (wr_data <$> filter (λ c, wr_error c = None) calls)).
Proof.
  intros Hw. unfold delivered_events.
  by rewrite Hw, filter_app, !fmap_app, concat_app.
Qed.

Lemma delivered_batch_write fd events :
  Forall (λ e, length e = EVENT_SIZE) events →
  concat (payload_events <$>
            (wr_data <$> filter (λ c, wr_error c = None)
                           (batch_write fd events)))
  = match events with [] => [] | _ => events ++ [SYN_EVENT] end.
Proof.
  intros Hsz. destruct events as [|e events]; [done|].
  unfold batch_write. rewrite filter_cons, decide_True by done.
  rewrite filter_nil. cbn [fmap list_fmap wr_data concat].
  change (e ++ concat events) with (concat (e :: events)).
  rewrite payload_events_batch by done. by rewrite app_nil_r.
Qed.

Lemma key_balance_batch k fd events :
  Forall (λ e, length e = EVENT_SIZE) events →
  key_balance k
    (concat (payload_events <$>
               (wr_data <$> filter (λ c, wr_error c = None)
                              (batch_write fd events))))
  = key_balance k events.
Proof.
  intros Hsz. rewrite delivered_batch_write by done.
  destruct events as [|e events]; [done|].
  rewrite key_balance_app, key_balance_SYN. lia.
Qed.

Section Balance.
Context `{SetIteration} (Hok : iteration_ok).
Context (s k fd : Z) (Hs : HID_TO_LINUX !! s = Some k).

Lemma balanced_step data w :
  (8 ≤ length data)%nat → balanced fd k w →
  ∃ w', process_hid_report data w = (Ok tt, w') ∧ balanced fd k w' ∧
        prev_keys (obj w') = report_keys data.
Proof.
  intros Hlen (Hfd & Hall & Hbal).
  rewrite (process_hid_report_ok data w fd)
    by auto using all_writes_succeed_next.
  eexists. split; [reflexivity|]. split; [|done].
  split; [exact Hfd|]. split.
  { unfold all_writes_succeed. cbn [write_faults].
    by apply all_writes_succeed_after. }
  erewrite delivered_events_app_writes by reflexivity.
  rewrite key_balance_app, Hbal.
  rewrite key_balance_batch by apply report_events_sized.
  rewrite (key_balance_report_events _ _ s) by done.
  cbn [obj prev_keys]. lia.
Qed.

Lemma balanced_process_reports reports w :
  Forall (λ data, (8 ≤ length data)%nat) reports → balanced fd k w →
  ∃ w', process_reports reports w = (Ok tt, w') ∧ balanced fd k w' ∧
        prev_keys (obj w') =
          default (prev_keys (obj w)) (report_keys <$> last reports).
Proof.
  intros Hwf. revert w.
  induction Hwf as [|data reports Hlen Hwf IH]; intros w Hb.
  - by exists w.
  - destruct (balanced_step data w Hlen Hb) as (w1 & Hrun & Hb1 & Hk1).
    destruct (IH w1 Hb1) as (w2 & Hrun2 & Hb2 & Hk2).
    exists w2. split; [|split; [done|]].
    + cbn [process_reports]. unfold mbind, M_bind. by rewrite Hrun.
    + rewrite Hk2, Hk1. destruct reports as [|d' reports']; [done|].
      rewrite last_cons_cons.
      destruct (last (d' :: reports')) eqn:Hl; [done|].
      by apply last_None in Hl.
Qed.
End Balance.



(** ** Write failures *)

Lemma emit_events_fails events w fd errno :
  ready fd w → events ≠ [] →
  head (write_faults w) = Some (Some errno) →
  (emit_events events w).1 = Raise (OSError errno) ∧
  obj (emit_events events w).2 = obj w.
Proof.
  unfold ready. intros Hfd Hne Hfault. split; [|apply emit_events_obj].
  rewrite emit_events_nonempty by done. unfold os_write. simpl.
  by rewrite Hfd, Hfault.
Qed.

Lemma process_hid_report_fails `{SetIteration} data w fd errno :
  ready fd w → (8 ≤ length data)%nat →
  report_events (obj w) data ≠ [] →
  head (write_faults w) = Some (Some errno) →
  process_hid_report data w =
    (Raise (OSError errno), (emit_events (report_events (obj w) data) w).2).
Proof.
  intros Hfd Hlen Hne Hfault. rewrite process_hid_report_run by done.
  destruct (emit_events_fails _ _ _ _ Hfd Hne Hfault) as [Hres _].
  destruct (emit_events (report_events (obj w) data) w) as [res w'].
  simpl in Hres. by subst res.
Qed.

Lemma drain_step_report `{SetIteration} data w :
  (8 ≤ length data)%nat →
  drain_step (ReadData data) w =
    match process_hid_report data w with
    | (Ok _, w') => (Ok Continue, w')
    | (Raise e, w') =>
        if is_BlockingIOError e then (Ok Break, w') else (Raise e, w')
    end.
Proof.
  intros Hlen. unfold drain_step, try_except, mbind, M_bind. simpl.
  rewrite decide_True by done.
  destruct (process_hid_report data w) as [[[]|e] w']; [done|].
  by destruct (is_BlockingIOError e).
Qed.

Lemma try_finally_raises {A} (body : M A) cleanup w e :
  (body w).1 = Raise e → ∃ e', (try_finally body cleanup w).1 = Raise e'.
Proof.
  intros Hb. unfold try_finally. destruct (body w) as [res w'].
  simpl in Hb. subst res. destruct (cleanup w') as [[[]|e'] w'']; eauto.
Qed.



(** * Concrete runs *)

Lemma elements_iteration_ok : iteration_ok (H := elements_iteration).
Proof. intros s. reflexivity. Qed.





Lemma emit_events_single_write_witness :
  ready 3 sample_world ∧
  ∃ answer,
    writes (emit_events [make_key_event 30 1] sample_world).2 =
      writes sample_world ++
      [{| wr_fd := 3;
          wr_data := concat [make_key_event 30 1] ++ SYN_EVENT;
          wr_error := answer |}].
Proof.
  assert (Hr : ready 3 sample_world) by reflexivity.
  split; [exact Hr|].
  destruct (emit_events_single_write [make_key_event 30 1] sample_world 3 Hr)
    as (_ & Hne & _).
  destruct (Hne ltac:(discriminate)) as (answer & Hw & _).
  exists answer. exact Hw.
Defined.

Lemma short_report_ignored_witness :
  (length [x01; x00; x04] < 8)%nat ∧
  process_hid_report (H := elements_iteration) [x01; x00; x04] sample_world
    = (Ok tt, sample_world).
Proof.
  assert (Hlen : (length [x01; x00; x04] < 8)%nat) by (simpl; lia).
  split; [exact Hlen|].
  exact (proj1 (short_report_ignored (H := elements_iteration)
                  [x01; x00; x04] sample_world Hlen)).
Defined.

Lemma rollover_bound_always_witness :
  rollover_ok sample_world ∧
  rollover_ok
    (process_hid_report (H := elements_iteration) report_ctrl_a
       sample_world).2.
Proof.
  assert (Hw : rollover_ok sample_world).
  { unfold rollover_ok. vm_compute. lia. }
  split; [exact Hw|].
  destruct (rollover_bound_always (H := elements_iteration))
    as (_ & _ & _ & Hp & _).
  exact (Hp report_ctrl_a sample_world Hw).
Defined.

Lemma unmapped_scancode_tracked_silent_witness :
  HID_TO_LINUX !! 0x68 = None ∧
  0x68 ∈ prev_keys (obj (world_after report_unmapped)) ∧
  release_events (H := elements_iteration) (obj (world_after report_unmapped))
    = key_events 0
        (filter (λ c, c ≠ 0x68)
           (elements (prev_keys (obj (world_after report_unmapped))))) ++
      modifier_release_events
        (prev_modifiers (obj (world_after report_unmapped))).
Proof.
  assert (Hs : HID_TO_LINUX !! 0x68 = None) by (vm_compute; reflexivity).
  split; [exact Hs|].
  destruct (unmapped_scancode_tracked_silent (H := elements_iteration)
              0x68 report_unmapped sample_world (world_after report_unmapped)
              Hs ltac:(simpl; lia) ltac:(vm_compute; reflexivity))
    as (_ & Hin & _ & Hrel & _).
  split; [|exact Hrel].
  apply Hin; [lia|]. apply (bool_decide_unpack _). vm_compute. reflexivity.
Defined.

Lemma repeated_report_idempotent_witness :
  (8 ≤ length report_ctrl_a)%nat ∧
  ∃ w2,
    process_hid_report (H := elements_iteration) report_ctrl_a
      (world_after report_ctrl_a) = (Ok tt, w2) ∧
    writes w2 = writes (world_after report_ctrl_a) ∧
    obj w2 = obj (world_after report_ctrl_a).
Proof.
  assert (Hlen : (8 ≤ length report_ctrl_a)%nat) by (simpl; lia).
  split; [exact Hlen|].
  destruct (repeated_report_idempotent (H := elements_iteration)
              report_ctrl_a sample_world (world_after report_ctrl_a)
              elements_iteration_ok Hlen ltac:(vm_compute; reflexivity))
    as (w2 & Hrun & _ & Hw & Ho).
  exists w2. split; [exact Hrun|]. split; [exact Hw|exact Ho].
Defined.

Lemma report_reads_bytes_0_and_2_to_7_witness :
  let d1 := report_ctrl_a in
  let d2 := [x01; xff; x04; x00; x00; x00; x00; x00; x99] in
  d1 !! 0%nat = d2 !! 0%nat ∧
  process_hid_report (H := elements_iteration) d1 sample_world
    = process_hid_report (H := elements_iteration) d2 sample_world.
Proof.
  cbv zeta. split; [reflexivity|].
  destruct (report_reads_bytes_0_and_2_to_7 (H := elements_iteration)
              report_ctrl_a
              [x01; xff; x04; x00; x00; x00; x00; x00; x99] sample_world
              ltac:(simpl; lia) ltac:(simpl; lia) ltac:(reflexivity))
    as [Hsame _].
  apply Hsame. intros i Hi.
  do 8 (destruct i as [|i]; [first [reflexivity | lia]|]). lia.
Defined.

(** * Further properties of the driver *)

(** ** The balance of any keycode *)

Lemma key_balance_cons k e l :
  key_balance k (e :: l) = key_balance k [e] + key_balance k l.
Proof. apply (key_balance_app k [e] l). Qed.

Lemma key_balance_single k k' v :
  0 ≤ k < 65536 → 0 ≤ k' < 65536 → v = 0 ∨ v = 1 →
  key_balance k [make_key_event k' v] =
    if decide (k' = k) then 2 * v - 1 else 0.
Proof.
  intros Hk Hk' Hv. unfold key_balance. rewrite !filter_cons, !filter_nil.
  destruct (decide (k' = k)) as [->|Hkk].
  - destruct Hv as [-> | ->].
    + rewrite decide_False, decide_True; [done|done|].
      intros Heq. apply make_key_event_inj in Heq; lia.
    + rewrite decide_True, decide_False; [done| |done].
      intros Heq. apply make_key_event_inj in Heq; lia.
  - rewrite !decide_False; [done| |];
      intros Heq; apply make_key_event_inj in Heq; lia.
Qed.

Lemma key_balance_key_events_range value codes k :
  0 ≤ k < 65536 → value = 0 ∨ value = 1 →
  key_balance k (key_events value codes) =
    (2 * value - 1) *
    Z.of_nat (length (filter (λ c, HID_TO_LINUX !! c = Some k) codes)).
Proof.
  intros Hk Hv. unfold key_events.
  induction codes as [|c codes IH]; [unfold key_balance; simpl; lia|].
  rewrite omap_cons_eq, filter_cons.
  destruct (HID_TO_LINUX !! c) as [k'|] eqn:Hc.
  - cbn [fmap option_fmap option_map]. rewrite key_balance_cons, IH.
    pose proof (scancode_keycode_range _ _ Hc) as Hk'.
    rewrite key_balance_single by done.
    destruct (decide (k' = k)) as [->|Hne].
    + rewrite decide_True by done. cbn [length]. lia.
    + rewrite decide_False by congruence. lia.
  - rewrite decide_False by done. exact IH.
Qed.

Lemma key_balance_modifier_changes_in pairs prev modifiers k :
  0 ≤ k < 65536 → Forall (λ bk : Z * Z, 0 ≤ bk.2 < 65536) pairs →
  key_balance k
    (omap (λ bk : Z * Z,
             if decide (bit_of prev bk.1 ≠ bit_of modifiers bk.1)
             then Some (make_key_event bk.2 (bit_of modifiers bk.1))
             else None) pairs)
  = modifier_held_in pairs k modifiers - modifier_held_in pairs k prev.
Proof.
  intros Hk Hr. induction Hr as [|bk pairs Hbk _ IH]; [done|].
  rewrite omap_cons_eq. cbn [modifier_held_in foldr].
  fold (modifier_held_in pairs k modifiers).
  fold (modifier_held_in pairs k prev).
  pose proof (bit_of_range prev bk.1) as Hp.
  pose proof (bit_of_range modifiers bk.1) as Hm.
  case_decide as Hch.
  - rewrite key_balance_cons, IH, key_balance_single by (done || lia).
    case_decide; lia.
  - rewrite IH. rewrite Hch. lia.
Qed.

Lemma key_balance_modifier_releases_in pairs prev k :
  0 ≤ k < 65536 → Forall (λ bk : Z * Z, 0 ≤ bk.2 < 65536) pairs →
  key_balance k
    (omap (λ bk : Z * Z,
             if decide (bit_of prev bk.1 ≠ 0)
             then Some (make_key_event bk.2 0)
             else None) pairs)
  = - modifier_held_in pairs k prev.
Proof.
  intros Hk Hr. induction Hr as [|bk pairs Hbk _ IH]; [done|].
  rewrite omap_cons_eq. cbn [modifier_held_in foldr].
  fold (modifier_held_in pairs k prev).
  pose proof (bit_of_range prev bk.1) as Hp.
  case_decide as Hch.
  - rewrite key_balance_cons, IH, key_balance_single by (done || lia).
    case_decide; lia.
  - rewrite IH. rewrite Hch. case_decide; lia.
Qed.

Lemma MODIFIER_MAP_range :
  Forall (λ bk : Z * Z, 0 ≤ bk.2 < 65536) MODIFIER_MAP.
Proof. apply Forall_forall, modifier_keycode_range. Qed.

Lemma key_balance_report_events_held `{SetIteration} st data k :
  iteration_ok → 0 ≤ k < 65536 →
  key_balance k (report_events st data) =
    held k {| uinput_fd := uinput_fd st; hidraw_fd := hidraw_fd st;
              prev_modifiers := report_modifiers data;
              prev_keys := report_keys data |}
    - held k st.
Proof.
  intros Hok Hk. rewrite report_events_eq, !key_balance_app.
  unfold modifier_change_events.
  rewrite key_balance_modifier_changes_in by auto using MODIFIER_MAP_range.
  rewrite !key_balance_key_events_range by auto.
  rewrite !holders_iter by done.
  unfold held. cbn [prev_keys prev_modifiers].
  rewrite (holders_split k (report_keys data) (prev_keys st)).
  rewrite (holders_split k (prev_keys st) (report_keys data)).
  assert (Hc : prev_keys st ∩ report_keys data
               = report_keys data ∩ prev_keys st).
  { apply set_eq. intros x. rewrite !elem_of_intersection. tauto. }
  rewrite Hc. lia.
Qed.

Lemma key_balance_release_events_held `{SetIteration} st k :
  iteration_ok → 0 ≤ k < 65536 →
  key_balance k (release_events st) = - held k st.
Proof.
  intros Hok Hk. rewrite release_events_eq, key_balance_app.
  unfold modifier_release_events.
  rewrite key_balance_modifier_releases_in by auto using MODIFIER_MAP_range.
  rewrite key_balance_key_events_range by auto.
  rewrite holders_iter by done. unfold held. lia.
Qed.

Lemma bit_of_zero bit : bit_of 0 bit = 0.
Proof. unfold bit_of. by rewrite Z.shiftr_0_l, Z.land_0_l. Qed.

Lemma modifier_held_in_zero pairs k : modifier_held_in pairs k 0 = 0.
Proof.
  induction pairs as [|bk pairs IH]; [done|].
  cbn [modifier_held_in foldr]. fold (modifier_held_in pairs k 0).
  rewrite IH, bit_of_zero. by case_decide.
Qed.

Lemma held_empty k st :
  prev_keys st = ∅ → prev_modifiers st = 0 → held k st = 0.
Proof.
  intros HK Hm. unfold held.
  by rewrite HK, Hm, holders_empty, modifier_held_in_zero.
Qed.

Lemma holders_modifier_keycode bk (K : gset Z) :
  bk ∈ MODIFIER_MAP → holders bk.2 K = 0%nat.
Proof.
  intros Hbk. unfold holders. apply length_filter_absent.
  intros c _ Hc. by apply (scancode_keycode_not_modifier _ _ bk Hc Hbk).
Qed.

Lemma modifier_held_in_unique pairs bit k m :
  NoDup pairs.*2 → (bit, k) ∈ pairs →
  modifier_held_in pairs k m = bit_of m bit.
Proof.
  intros Hnd Hin. induction pairs as [|bk pairs IH]; [by inversion Hin|].
  rewrite fmap_cons in Hnd. apply NoDup_cons in Hnd as [Hbk Hnd].
  cbn [modifier_held_in foldr]. fold (modifier_held_in pairs k m).
  apply elem_of_cons in Hin as [<-|Hin].
  - cbn [snd fst]. rewrite decide_True by done.
    assert (Hrest : modifier_held_in pairs k m = 0).
    { clear IH Hnd. induction pairs as [|bk' pairs IH']; [done|].
      cbn [modifier_held_in foldr]. fold (modifier_held_in pairs k m).
      rewrite fmap_cons in Hbk. apply not_elem_of_cons in Hbk as [Hne Hbk].
      rewrite decide_False by done. by rewrite IH'. }
    lia.
  - rewrite decide_False.
    + rewrite IH by done. lia.
    + intros Heq. apply Hbk. rewrite Heq.
      apply list_elem_of_fmap. by exists (bit, k).
Qed.

Lemma MODIFIER_MAP_keycodes_NoDup : NoDup MODIFIER_MAP.*2.
Proof. apply (bool_decide_unpack _). vm_compute. reflexivity. Qed.

Lemma held_modifier bit k st :
  (bit, k) ∈ MODIFIER_MAP → held k st = bit_of (prev_modifiers st) bit.
Proof.
  intros Hin. unfold held.
  rewrite (holders_modifier_keycode (bit, k)) by done.
  rewrite (modifier_held_in_unique _ bit)
    by auto using MODIFIER_MAP_keycodes_NoDup.
  lia.
Qed.

Lemma tallied_process_hid_report `{SetIteration} fd k data w :
  iteration_ok → 0 ≤ k < 65536 → (8 ≤ length data)%nat →
  tallied fd k w →
  ∃ w', process_hid_report data w = (Ok tt, w') ∧ tallied fd k w' ∧
        prev_keys (obj w') = report_keys data ∧
        prev_modifiers (obj w') = report_modifiers data ∧
        hidraw_fd (obj w') = hidraw_fd (obj w).
Proof.
  intros Hok Hk Hlen (Hfd & Hall & Hbal).
  rewrite (process_hid_report_ok data w fd)
    by auto using all_writes_succeed_next.
  eexists. split; [reflexivity|]. split; [|done].
  split; [exact Hfd|]. split.
  { unfold all_writes_succeed. cbn [write_faults].
    by apply all_writes_succeed_after. }
  erewrite delivered_events_app_writes by reflexivity.
  rewrite key_balance_app, Hbal.
  rewrite key_balance_batch by apply report_events_sized.
  rewrite key_balance_report_events_held by done.
  cbn [obj]. lia.
Qed.

Lemma tallied_process_reports `{SetIteration} fd k reports w :
  iteration_ok → 0 ≤ k < 65536 →
  Forall (λ data, (8 ≤ length data)%nat) reports → tallied fd k w →
  ∃ w', process_reports reports w = (Ok tt, w') ∧ tallied fd k w' ∧
        prev_modifiers (obj w') =
          default (prev_modifiers (obj w)) (report_modifiers <$> last reports).
Proof.
  intros Hok Hk Hwf. revert w.
  induction Hwf as [|data reports Hlen Hwf IH]; intros w Hb.
  - by exists w.
  - destruct (tallied_process_hid_report fd k data w Hok Hk Hlen Hb)
      as (w1 & Hrun & Hb1 & _ & Hm1 & _).
    destruct (IH w1 Hb1) as (w2 & Hrun2 & Hb2 & Hm2).
    exists w2. split; [|split; [done|]].
    + cbn [process_reports]. unfold mbind, M_bind. by rewrite Hrun.
    + rewrite Hm2, Hm1. destruct reports as [|d' reports']; [done|].
      rewrite last_cons_cons.
      destruct (last (d' :: reports')) eqn:Hl; [done|].
      by apply last_None in Hl.
Qed.

Lemma tallied_after_setup fd faults k :
  Forall (λ answer, answer = None) faults →
  tallied fd k (world_after_setup fd faults).
Proof.
  intros Hf. split; [done|]. split; [done|].
  rewrite held_empty by done. reflexivity.
Qed.

(** X1: the counterpart of the press and release balance for modifiers.
    After any sequence of well-formed reports processed from a fresh
    object, every write succeeding, the press events minus the release
    events delivered for the keycode of a modifier bit equal that bit of
    the most recent report's first byte, and 0 before any report. *)
Theorem modifier_balance `{SetIteration}
    (reports : list bytes) (fd : Z) (faults : list (option Z))
    (bit k : Z) :
  iteration_ok →
  Forall (λ data, (8 ≤ length data)%nat) reports →
  Forall (λ answer, answer = None) faults →
  (bit, k) ∈ MODIFIER_MAP →
  let after := process_reports reports (world_after_setup fd faults) in
  after.1 = Ok tt ∧
  prev_modifiers (obj after.2) = last_modifiers reports ∧
  key_balance k (delivered_events after.2)
    = bit_of (last_modifiers reports) bit.
Proof.
  intros Hok Hwf Hfaults Hin after.
  pose proof (modifier_keycode_range _ Hin) as Hk. cbn [snd] in Hk.
  destruct (tallied_process_reports fd k reports _ Hok Hk Hwf
              (tallied_after_setup fd faults k Hfaults))
    as (w' & Hrun & (_ & _ & Hbal) & Hm).
  assert (Hlast : prev_modifiers (obj w') = last_modifiers reports).
  { rewrite Hm. unfold last_modifiers. by destruct (last reports). }
  unfold after. rewrite Hrun. cbn [fst snd].
  split; [done|]. split; [done|].
  by rewrite Hbal, (held_modifier bit), Hlast.
Qed.

Lemma modifier_balance_witness :
  (1, 42) ∈ MODIFIER_MAP ∧
  key_balance 42
    (delivered_events
       (process_reports (H := elements_iteration)
          [report_shift_w; report_none; report_shift_w]
          (world_after_setup 3 [])).2)
    = 1.
Proof.
  assert (Hin : (1, 42) ∈ MODIFIER_MAP).
  { apply (bool_decide_unpack _). vm_compute. reflexivity. }
  split; [exact Hin|].
  pose proof (modifier_balance (H := elements_iteration)
                [report_shift_w; report_none; report_shift_w] 3 [] 1 42
                elements_iteration_ok
                ltac:(repeat constructor) ltac:(constructor) Hin) as Hb.
  cbv zeta in Hb. destruct Hb as (_ & _ & Hb).
  rewrite Hb. vm_compute. reflexivity.
Defined.

(** ** The lifecycle releases what it pressed *)

Lemma tallied_ext fd k w w' :
  uinput_fd (obj w') = uinput_fd (obj w) →
  prev_modifiers (obj w') = prev_modifiers (obj w) →
  prev_keys (obj w') = prev_keys (obj w) →
  writes w' = writes w → write_faults w' = write_faults w →
  tallied fd k w → tallied fd k w'.
Proof.
  intros Hu Hm HK Hw Hf (Hfd & Hall & Hbal).
  unfold tallied, ready, all_writes_succeed, delivered_events, held.
  rewrite Hu, Hm, HK, Hw, Hf. done.
Qed.

Lemma tallied_release_all_keys `{SetIteration} fd k w :
  iteration_ok → 0 ≤ k < 65536 → tallied fd k w →
  ∃ w', release_all_keys w = (Ok tt, w') ∧ tallied fd k w' ∧
        prev_keys (obj w') = ∅ ∧ prev_modifiers (obj w') = 0 ∧
        hidraw_fd (obj w') = hidraw_fd (obj w).
Proof.
  intros Hok Hk (Hfd & Hall & Hbal).
  rewrite (release_all_keys_ok w fd) by auto using all_writes_succeed_next.
  eexists. split; [reflexivity|]. split; [|by repeat split].
  split; [exact Hfd|]. split.
  { unfold all_writes_succeed. cbn [write_faults].
    by apply all_writes_succeed_after. }
  erewrite delivered_events_app_writes by reflexivity.
  rewrite key_balance_app, Hbal.
  rewrite key_balance_batch by apply release_events_sized.
  rewrite key_balance_release_events_held by done.
  cbn [obj].
  rewrite (held_empty _ (Build_MonsGeekHID _ _ _ _)) by done. lia.
Qed.

Lemma settled_disconnect_hidraw `{SetIteration} fd k w :
  iteration_ok → 0 ≤ k < 65536 → settled fd k w →
  (disconnect_hidraw w).1 = Ok tt ∧
  settled fd k (disconnect_hidraw w).2 ∧
  hidraw_fd (obj (disconnect_hidraw w).2) = None.
Proof.
  intros Hok Hk [Ht Hnone]. unfold disconnect_hidraw, mbind, M_bind.
  cbn [get_self]. destruct (hidraw_fd (obj w)) as [h|] eqn:Hh.
  - cbn [os_close_quietly set_hidraw_fd modify with_obj].
    match goal with |- context [release_all_keys ?w0] => set (w1 := w0) end.
    assert (Ht1 : tallied fd k w1) by (by apply (tallied_ext fd k w)).
    destruct (tallied_release_all_keys fd k w1 Hok Hk Ht1)
      as (w2 & Hrun & Ht2 & HK & Hm & Hh2).
    rewrite Hrun. cbn [fst snd]. split; [done|].
    split; [|by rewrite Hh2].
    split; [exact Ht2|]. intros _. split; [exact HK|exact Hm].
  - cbn [mret M_ret fst snd]. split; [done|]. split; [|exact Hh].
    split; [exact Ht|]. intros _. by apply Hnone.
Qed.

Lemma tallied_drain_step `{SetIteration} fd k r w :
  iteration_ok → 0 ≤ k < 65536 → tallied fd k w →
  tallied fd k (drain_step r w).2 ∧
  hidraw_fd (obj (drain_step r w).2) = hidraw_fd (obj w).
Proof.
  intros Hok Hk Ht. destruct r as [data|errno].
  - destruct (decide (8 ≤ length data)%nat) as [Hlen|Hlen].
    + rewrite drain_step_report by done.
      destruct (tallied_process_hid_report fd k data w Hok Hk Hlen Ht)
        as (w' & Hrun & Ht' & _ & _ & Hh).
      rewrite Hrun. by split.
    + unfold drain_step, try_except, mbind, M_bind. cbn [os_read].
      cbn. by rewrite decide_False by done.
  - unfold drain_step, try_except, mbind, M_bind. cbn [os_read raise].
    by destruct (is_BlockingIOError (OSError errno)).
Qed.

Lemma tallied_drain `{SetIteration} fd k reads w :
  iteration_ok → 0 ≤ k < 65536 → tallied fd k w →
  tallied fd k (drain reads w).2 ∧
  hidraw_fd (obj (drain reads w).2) = hidraw_fd (obj w).
Proof.
  intros Hok Hk. revert w.
  induction reads as [|r reads IH]; intros w Ht; [done|].
  cbn [drain]. unfold mbind, M_bind.
  destruct (tallied_drain_step fd k r w Hok Hk Ht) as [Ht1 Hh1].
  destruct (drain_step r w) as [[[]|e] w1]; cbn [snd] in *; [|done|done].
  destruct (IH w1 Ht1) as [Ht2 Hh2]. split; [done|congruence].
Qed.

Lemma settled_poll_device `{SetIteration} fd k readable reads w :
  iteration_ok → 0 ≤ k < 65536 →
  tallied fd k w → hidraw_fd (obj w) ≠ None →
  settled fd k (poll_device readable reads w).2.
Proof.
  intros Hok Hk Ht Hh. unfold poll_device, try_except.
  assert (Hbody : tallied fd k
            ((if readable then drain reads else mret tt) w).2 ∧
          hidraw_fd (obj ((if readable then drain reads else mret tt) w).2)
            = hidraw_fd (obj w)).
  { destruct readable; [by apply tallied_drain|done]. }
  destruct ((if readable then drain reads else mret tt) w)
    as [[[]|e] w1]; cbn [snd] in Hbody; destruct Hbody as [Ht1 Hh1].
  - split; [done|]. cbn [snd]. congruence.
  - assert (Hs1 : settled fd k w1) by (split; [done|congruence]).
    destruct e as [errno|]; [|done].
    destruct (decide (errno = 19)); [|by destruct (decide (errno ≠ 11))].
    by apply settled_disconnect_hidraw.
Qed.

Lemma settled_run_iteration `{SetIteration} fd k env w :
  iteration_ok → 0 ≤ k < 65536 → settled fd k w →
  settled fd k (run_iteration env w).2.
Proof.
  intros Hok Hk [Ht Hnone]. unfold run_iteration, mbind, M_bind.
  cbn [get_self]. destruct (hidraw_fd (obj w)) as [h|] eqn:Hh.
  - cbn [mret M_ret]. apply settled_poll_device; [done..|].
    by rewrite Hh.
  - destruct (Hnone eq_refl) as [HK Hm].
    unfold connect_hidraw.
    destruct (env_found env); [|by split].
    destruct (env_opened env) as [h|errno]; [|by split].
    unfold mbind, M_bind.
    cbn [set_hidraw_fd set_prev_modifiers set_prev_keys modify with_obj
         mret M_ret].
    apply settled_poll_device; [done..| |done].
    apply (tallied_ext fd k w); try done.
Qed.

Lemma settled_run_loop `{SetIteration} fd k envs w :
  iteration_ok → 0 ≤ k < 65536 → settled fd k w →
  settled fd k (run_loop envs w).2.
Proof.
  intros Hok Hk. revert w.
  induction envs as [|env envs IH]; intros w Hs; [done|].
  cbn [run_loop]. unfold mbind, M_bind.
  pose proof (settled_run_iteration fd k env w Hok Hk Hs) as Hs1.
  destruct (run_iteration env w) as [[[]|e] w1]; [|done].
  by apply IH.
Qed.



(** ** The inner read loop *)

Lemma drain_step_short `{SetIteration} data w :
  ¬ (8 ≤ length data)%nat → drain_step (ReadData data) w = (Ok Continue, w).
Proof.
  intros Hlen. unfold drain_step, try_except, mbind, M_bind.
  cbn [os_read]. cbn. by rewrite decide_False by done.
Qed.

Lemma drain_step_read_error `{SetIteration} errno w :
  drain_step (ReadError errno) w =
    if is_BlockingIOError (OSError errno) then (Ok Break, w)
    else (Raise (OSError errno), w).
Proof.
  unfold drain_step, try_except, mbind, M_bind.
  change (os_read (ReadError errno) w) with (@Raise bytes (OSError errno), w).
  cbv iota beta. by destruct (is_BlockingIOError (OSError errno)).
Qed.

(** X3: the inner loop of [run] is the processing of the well-formed
    reports in the order read: whenever that processing returns
    normally, draining a burst of reads does exactly the same, reads
    shorter than 8 bytes (an empty read included) being dropped without
    a call. *)
Theorem drain_processes_reports_in_order `{SetIteration}
    (datas : list bytes) (w : world) :
  let reports := filter (λ data, (8 ≤ length data)%nat) datas in
  (process_reports reports w).1 = Ok tt →
  drain (ReadData <$> datas) w = process_reports reports w.
Proof.
  cbv zeta. revert w. induction datas as [|data datas IH]; intros w Hok.
  - reflexivity.
  - rewrite fmap_cons. cbn [drain]. unfold mbind, M_bind.
    rewrite filter_cons in Hok |- *.
    destruct (decide (8 ≤ length data)%nat) as [Hlen|Hlen].
    + rewrite drain_step_report by done.
      cbn [process_reports] in Hok |- *. unfold mbind, M_bind in Hok |- *.
      destruct (process_hid_report data w) as [[[]|e] w1]; [|done].
      by apply IH.
    + rewrite drain_step_short by done. by apply IH.
Qed.

Lemma drain_processes_reports_in_order_witness :
  drain (H := elements_iteration)
    (ReadData <$> [report_a; [x01; x00]; []; report_b]) sample_world
  = process_reports (H := elements_iteration) [report_a; report_b]
      sample_world.
Proof.
  apply (drain_processes_reports_in_order (H := elements_iteration)
           [report_a; [x01; x00]; []; report_b] sample_world).
  vm_compute. reflexivity.
Defined.

(** X4: a read that would block ends the inner loop normally, and no
    answer after it is looked at: whatever was read before, appending a
    [BlockingIOError] and any further reads changes nothing. *)
Theorem drain_stops_when_read_would_block `{SetIteration}
    (reads later : list read_answer) (errno : Z) (w : world) :
  is_BlockingIOError (OSError errno) = true →
  drain (reads ++ ReadError errno :: later) w = drain reads w.
Proof.
  intros Hb. revert w. induction reads as [|r reads IH]; intros w.
  - cbn [app drain]. unfold mbind, M_bind.
    by rewrite drain_step_read_error, Hb.
  - rewrite <- app_comm_cons. cbn [drain]. unfold mbind, M_bind.
    destruct (drain_step r w) as [[[]|e] w1]; [|done|done].
    apply IH.
Qed.

Lemma drain_stops_when_read_would_block_witness :
  is_BlockingIOError (OSError 11) = true ∧
  drain (H := elements_iteration)
    ([ReadData report_a] ++ ReadError 11 :: [ReadData report_b])
    sample_world
  = drain (H := elements_iteration) [ReadData report_a] sample_world.
Proof.
  split; [reflexivity|].
  apply (drain_stops_when_read_would_block (H := elements_iteration)
           [ReadData report_a] [ReadData report_b] 11 sample_world).
  reflexivity.
Defined.

(** ** Disconnecting *)

Lemma release_all_keys_hidraw `{SetIteration} w :
  hidraw_fd (obj (release_all_keys w).2) = hidraw_fd (obj w).
Proof.
  rewrite release_all_keys_run.
  pose proof (emit_events_obj (release_events (obj w)) w) as Hobj.
  destruct (emit_events (release_events (obj w)) w) as [[[]|e] w'];
    cbn [snd] in *; [|by rewrite Hobj].
  unfold mbind, M_bind.
  cbn [set_prev_modifiers set_prev_keys modify with_obj snd obj hidraw_fd].
  by rewrite Hobj.
Qed.

Lemma disconnect_hidraw_drops_handle `{SetIteration} w :
  hidraw_fd (obj (disconnect_hidraw w).2) = None.
Proof.
  unfold disconnect_hidraw, mbind, M_bind. cbn [get_self].
  destruct (hidraw_fd (obj w)) as [h|] eqn:Hh; [|done].
  cbn [os_close_quietly set_hidraw_fd modify with_obj].
  by rewrite release_all_keys_hidraw.
Qed.

Lemma disconnect_hidraw_disconnected `{SetIteration} w :
  hidraw_fd (obj w) = None → disconnect_hidraw w = (Ok tt, w).
Proof.
  intros Hh. unfold disconnect_hidraw, mbind, M_bind. cbn [get_self].
  by rewrite Hh.
Qed.

(** X5: [disconnect_hidraw] acts once.  After a call, however it ended
    (also when the release write raised), the handle is dropped, and a
    second call returns at once: it closes nothing, emits nothing and
    writes nothing.  So the call in the [finally] block of [run] after a
    device removal releases no key a second time. *)
Theorem disconnect_hidraw_once `{SetIteration} (w : world) :
  hidraw_fd (obj (disconnect_hidraw w).2) = None ∧
  disconnect_hidraw (disconnect_hidraw w).2
    = (Ok tt, (disconnect_hidraw w).2).
Proof.
  split; [apply disconnect_hidraw_drops_handle|].
  apply disconnect_hidraw_disconnected, disconnect_hidraw_drops_handle.
Qed.

Lemma os_write_fails fd data w errno :
  head (write_faults w) = Some (Some errno) →
  os_write (Some fd) data w =
    (Raise (OSError errno),
     {| obj := obj w;
        writes := writes w ++
          [{| wr_fd := fd; wr_data := data; wr_error := Some errno |}];
        write_faults := tail (write_faults w);
        closed := closed w; emit_calls := emit_calls w |}).
Proof. intros Hf. unfold os_write. by rewrite Hf. Qed.

(** X6: a release that fails is never retried.  When the write of the
    release events raises during [disconnect_hidraw], the exception
    reaches the caller with the descriptor already closed and the handle
    dropped, while [prev_keys] and [prev_modifiers] still record what is
    held; any later [disconnect_hidraw] returns at once, so no release
    event for those keys is written afterwards. *)
Theorem failed_release_not_retried `{SetIteration}
    (w : world) (fd h errno : Z) :
  ready fd w →
  hidraw_fd (obj w) = Some h →
  release_events (obj w) ≠ [] →
  head (write_faults w) = Some (Some errno) →
  let failed := disconnect_hidraw w in
  failed.1 = Raise (OSError errno) ∧
  closed failed.2 = closed w ++ [h] ∧
  hidraw_fd (obj failed.2) = None ∧
  prev_keys (obj failed.2) = prev_keys (obj w) ∧
  prev_modifiers (obj failed.2) = prev_modifiers (obj w) ∧
  delivered_events failed.2 = delivered_events w ∧
  disconnect_hidraw failed.2 = (Ok tt, failed.2).
Proof.
  intros Hfd Hh Hne Hfault failed.
  assert (Hrun : failed =
            (Raise (OSError errno),
             {| obj := {| uinput_fd := uinput_fd (obj w); hidraw_fd := None;
                          prev_modifiers := prev_modifiers (obj w);
                          prev_keys := prev_keys (obj w) |};
                writes := writes w ++
                  [{| wr_fd := fd;
                      wr_data := concat (release_events (obj w)) ++ SYN_EVENT;
                      wr_error := Some errno |}];
                write_faults := tail (write_faults w);
                closed := closed w ++ [h];
                emit_calls := emit_calls w ++ [release_events (obj w)] |})).
  { unfold failed, disconnect_hidraw, mbind, M_bind. cbn [get_self].
    rewrite Hh. cbn [os_close_quietly set_hidraw_fd modify with_obj].
    rewrite release_all_keys_run.
    change (release_events _) with (release_events (obj w)).
    rewrite emit_events_nonempty by done.
    cbn [trace_emit modify with_obj snd obj uinput_fd writes write_faults
         closed emit_calls].
    unfold ready in Hfd. rewrite Hfd.
    by rewrite (os_write_fails fd _ _ errno). }
  split; [by rewrite Hrun|]. split; [by rewrite Hrun|].
  split; [by rewrite Hrun|]. split; [by rewrite Hrun|].
  split; [by rewrite Hrun|]. split.
  - rewrite Hrun. unfold delivered_events. cbn [snd writes].
    rewrite filter_app, filter_cons, decide_False by done.
    by rewrite filter_nil, app_nil_r.
  - apply disconnect_hidraw_disconnected. by rewrite Hrun.
Qed.

Lemma failed_release_not_retried_witness :
  let w := {| obj := {| uinput_fd := Some 3; hidraw_fd := Some 4;
                        prev_modifiers := 2; prev_keys := {[ 0x1a ]} |};
              writes := []; write_faults := [Some 5]; closed := [];
              emit_calls := [] |} in
  hidraw_fd (obj w) = Some 4 ∧
  (disconnect_hidraw (H := elements_iteration) w).1 = Raise (OSError 5) ∧
  prev_keys (obj (disconnect_hidraw (H := elements_iteration) w).2)
    = {[ 0x1a ]}.
Proof.
  cbv zeta. split; [reflexivity|].
  pose proof (failed_release_not_retried (H := elements_iteration)
    {| obj := {| uinput_fd := Some 3; hidraw_fd := Some 4;
                 prev_modifiers := 2; prev_keys := {[ 0x1a ]} |};
       writes := []; write_faults := [Some 5]; closed := [];
       emit_calls := [] |} 3 4 5
    ltac:(reflexivity) ltac:(reflexivity)
    ltac:(vm_compute; discriminate) ltac:(reflexivity)) as Hf.
  cbv zeta in Hf. destruct Hf as (Hres & _ & _ & HK & _).
  split; [exact Hres|exact HK].
Defined.

(** ** Registering the synthetic device *)

Lemma perform_ioctls_ok calls answers made :
  perform_ioctls calls answers = (made, None) → made = calls.
Proof.
  revert answers made. induction calls as [|c calls IH];
    intros answers made Hp; cbn [perform_ioctls] in Hp.
  - by injection Hp as <-.
  - destruct (default None (head answers)); [done|].
    destruct (perform_ioctls calls (tail answers)) as [made' failure] eqn:Hr.
    injection Hp as <- ->. by rewrite (IH _ _ Hr).
Qed.

Lemma perform_ioctls_fails calls answers i errno :
  (i < length calls)%nat →
  answers !! i = Some (Some errno) →
  (∀ j, (j < i)%nat → default None (answers !! j) = None) →
  perform_ioctls calls answers = (take (S i) calls, Some errno).
Proof.
  revert answers i. induction calls as [|c calls IH];
    intros answers i Hi Hat Hbefore; [simpl in Hi; lia|].
  cbn [perform_ioctls]. destruct i as [|i].
  - destruct answers as [|a answers]; [done|]. cbn in Hat.
    injection Hat as ->. cbn [head default]. reflexivity.
  - pose proof (Hbefore 0%nat ltac:(lia)) as H0.
    destruct answers as [|a answers]; [done|].
    cbn in H0. subst a. cbn [head default tail].
    rewrite (IH answers i); [done|simpl in Hi; lia|done|].
    intros j Hj. apply (Hbefore (S j)). lia.
Qed.

Lemma filter_keeps_all {A} (P : A → Prop) `{∀ x, Decision (P x)}
    (l : list A) :
  Forall P l → filter P l = l.
Proof.
  induction 1 as [|a l Ha _ IH]; [done|].
  by rewrite filter_cons, decide_True, IH.
Qed.

Lemma all_keys_scancode s k : HID_TO_LINUX !! s = Some k → k ∈ all_keys.
Proof.
  intros Hs. unfold all_keys. apply elem_of_union. left.
  apply elem_of_map_img. by exists s.
Qed.

Lemma all_keys_modifier bk : bk ∈ MODIFIER_MAP → bk.2 ∈ all_keys.
Proof.
  intros Hbk. unfold all_keys. apply elem_of_union. right.
  apply elem_of_list_to_set, list_elem_of_fmap. by exists bk.
Qed.

Lemma every_event_keycode_in_all_keys `{SetIteration} st data e :
  iteration_ok →
  e ∈ report_events st data ++ release_events st →
  ∃ k v, e = make_key_event k v ∧ k ∈ all_keys.
Proof.
  intros Hok. rewrite report_events_eq, release_events_eq, !elem_of_app.
  assert (Hkey : ∀ v codes, e ∈ key_events v codes →
            ∃ k v, e = make_key_event k v ∧ k ∈ all_keys).
  { intros v codes (s & k & _ & Hk & ->)%key_events_elem.
    exists k, v. split; [done|]. by apply (all_keys_scancode s). }
  intros [[Hm|[Hr|Hp]]|[Hr|Hm]]; eauto.
  - apply modifier_change_events_elem in Hm as (bk & Hbk & ->).
    eexists _, _. split; [done|]. by apply all_keys_modifier.
  - apply modifier_release_events_elem in Hm as (bk & Hbk & ->).
    eexists _, _. split; [done|]. by apply all_keys_modifier.
Qed.

(** X7: when [setup_uinput] returns normally it has enabled, before
    creating the device, the event types EV_SYN and EV_KEY and the
    keycode of every event the driver can ever emit, for a report or for
    a full release from any state; each keycode of [all_keys] is enabled
    exactly once, the calls end with UI_DEV_SETUP and UI_DEV_CREATE, and
    [uinput_fd] holds the descriptor. *)
Theorem setup_uinput_enables_every_emitted_key `{SetIteration}
    (fd : Z) (answers : list (option Z)) (w w' : world)
    (made : list ioctl_call) :
  iteration_ok →
  setup_uinput (Opened fd) answers w = (made, (Ok tt, w')) →
  uinput_fd (obj w') = Some fd ∧
  (∃ before,
     made = before ++
       [ {| io_fd := fd; io_request := UI_DEV_SETUP;
            io_arg := BytesArg uinput_setup |};
         {| io_fd := fd; io_request := UI_DEV_CREATE; io_arg := NoArg |} ] ∧
     {| io_fd := fd; io_request := UI_SET_EVBIT; io_arg := IntArg EV_SYN |}
       ∈ before ∧
     {| io_fd := fd; io_request := UI_SET_EVBIT; io_arg := IntArg EV_KEY |}
       ∈ before ∧
     filter (λ c, io_request c = UI_SET_KEYBIT) made ≡ₚ
       (λ key, {| io_fd := fd; io_request := UI_SET_KEYBIT;
                  io_arg := IntArg key |}) <$> elements all_keys ∧
     ∀ st data e,
       e ∈ report_events st data ++ release_events st →
       ∃ k v, e = make_key_event k v ∧
         {| io_fd := fd; io_request := UI_SET_KEYBIT; io_arg := IntArg k |}
           ∈ before).
Proof.
  intros Hok Hrun. unfold setup_uinput in Hrun.
  destruct (perform_ioctls (setup_uinput_ioctls fd) answers)
    as [made' [errno|]] eqn:Hp; [done|].
  apply perform_ioctls_ok in Hp. subst made'.
  injection Hrun as <- <-. split; [done|].
  unfold setup_uinput_ioctls. rewrite app_assoc.
  eexists. split; [reflexivity|]. split; [by left|].
  split; [right; by left|]. split.
  - rewrite !filter_app, !filter_cons, !filter_nil.
    rewrite !decide_False by done. rewrite app_nil_r. cbn [app].
    rewrite filter_keeps_all.
    + by rewrite (Hok all_keys).
    + apply Forall_forall. by intros c (key & -> & _)%list_elem_of_fmap.
  - intros st data e He.
    destruct (every_event_keycode_in_all_keys st data e Hok He)
      as (k & v & -> & Hk).
    exists k, v. split; [done|]. apply elem_of_app. right.
    apply list_elem_of_fmap. exists k. split; [done|].
    by apply set_iter_elem.
Qed.

Lemma setup_uinput_enables_every_emitted_key_witness :
  uinput_fd
    (obj (setup_uinput (H := elements_iteration) (Opened 3) []
            (initial_world [])).2.2) = Some 3.
Proof.
  assert (Hrun : ∃ made w',
            setup_uinput (H := elements_iteration) (Opened 3) []
              (initial_world []) = (made, (Ok tt, w'))).
  { eexists _, _. vm_compute. reflexivity. }
  destruct Hrun as (made & w' & Hrun).
  rewrite Hrun.
  exact (proj1 (setup_uinput_enables_every_emitted_key
                  (H := elements_iteration) 3 [] _ _ _
                  elements_iteration_ok Hrun)).
Defined.

(** X8: [setup_uinput] catches nothing.  If [os.open] fails, no ioctl is
    made; if the ioctl number [i] is the first to fail, exactly the
    calls up to it are made.  Either way the [OSError] leaves the
    method, the object is untouched and [uinput_fd] is not assigned (the
    opened descriptor is not closed). *)
Theorem setup_uinput_failure `{SetIteration}
    (fd errno : Z) (answers : list (option Z)) (i : nat) (w : world) :
  setup_uinput (OpenError errno) answers w
    = ([], (Raise (OSError errno), w)) ∧
  ((i < length (setup_uinput_ioctls fd))%nat →
   answers !! i = Some (Some errno) →
   (∀ j, (j < i)%nat → default None (answers !! j) = None) →
   setup_uinput (Opened fd) answers w
     = (take (S i) (setup_uinput_ioctls fd), (Raise (OSError errno), w))).
Proof.
  split; [done|]. intros Hi Hat Hbefore. unfold setup_uinput.
  by rewrite (perform_ioctls_fails _ _ i errno).
Qed.

Lemma setup_uinput_failure_witness :
  setup_uinput (H := elements_iteration) (Opened 3) [None; None; Some 22]
    (initial_world [])
  = (take 3 (setup_uinput_ioctls (H := elements_iteration) 3),
     (Raise (OSError 22), initial_world [])).
Proof.
  apply (setup_uinput_failure (H := elements_iteration) 3 22
           [None; None; Some 22] 2 (initial_world [])).
  - vm_compute. lia.
  - reflexivity.
  - intros j Hj. destruct j as [|[|j]]; [reflexivity|reflexivity|lia].
Defined.

(** ** Locating the raw device *)

Lemma starts_with_spec needle hay :
  starts_with needle hay = true ↔ ∃ after, hay = needle ++ after.
Proof.
  revert hay. induction needle as [|a needle IH]; intros hay.
  - split; [by exists hay|done].
  - destruct hay as [|b hay]; cbn [starts_with].
    + split; [done|]. by intros [after Heq].
    + rewrite andb_true_iff, bool_decide_eq_true, IH. split.
      * intros (-> & after & ->). by exists after.
      * intros [after Heq]. injection Heq as -> ->. eauto.
Qed.

Lemma occurs_in_spec needle hay :
  occurs_in needle hay = true ↔ ∃ before after, hay = before ++ needle ++ after.
Proof.
  induction hay as [|b hay IH]; cbn [occurs_in];
    rewrite orb_true_iff, starts_with_spec.
  - split.
    + intros [[after Heq]|?]; [|done]. by exists [], after.
    + intros (before & after & Heq). left.
      symmetry in Heq. apply app_eq_nil in Heq as [-> Heq].
      by exists after.
  - rewrite IH. split.
    + intros [[after Heq]|(before & after & ->)].
      * by exists [], after.
      * by exists (b :: before), after.
    + intros (before & after & Heq). destruct before as [|b' before].
      * left. by exists after.
      * right. injection Heq as -> ->. by exists before, after.
Qed.

Lemma str_in_spec needle content :
  str_in needle content = true ↔ substring needle content.
Proof. apply occurs_in_spec. Qed.

Lemma is_wired_keyboard_spec node content :
  node_uevent node = UeventContent content →
  is_wired_keyboard content = true ↔ wired_keyboard node.
Proof.
  intros Hc. unfold is_wired_keyboard, wired_keyboard.
  rewrite !andb_true_iff, !negb_true_iff, <- !not_true_iff_false.
  rewrite !str_in_spec. split.
  - intros [[? ?] [? ?]]. by exists content.
  - intros (c & Hc' & ? & ? & ? & ?). rewrite Hc in Hc'.
    by injection Hc' as <-.
Qed.

(** X9: [find_hidraw] returns the first path, in the order of the glob,
    whose uevent file exists, can be read, contains both 3151 and 4015
    and contains neither 2.4G nor 4011, anywhere in the text; it returns
    None exactly when no path is like that.  A missing or unreadable
    uevent file only makes it go on to the next path. *)
Theorem find_hidraw_first_wired_keyboard (nodes : list hidraw_node) :
  match find_hidraw nodes with
  | Some hr =>
      ∃ before node after,
        nodes = before ++ node :: after ∧
        node_path node = hr ∧
        wired_keyboard node ∧
        Forall (λ other, ¬ wired_keyboard other) before
  | None => Forall (λ other, ¬ wired_keyboard other) nodes
  end.
Proof.
  induction nodes as [|node nodes IH]; cbn [find_hidraw]; [done|].
  assert (Hskip : ¬ wired_keyboard node →
    match find_hidraw nodes with
    | Some hr =>
        ∃ before node' after,
          node :: nodes = before ++ node' :: after ∧
          node_path node' = hr ∧ wired_keyboard node' ∧
          Forall (λ other, ¬ wired_keyboard other) before
    | None => Forall (λ other, ¬ wired_keyboard other) (node :: nodes)
    end).
  { intros Hno. destruct (find_hidraw nodes) as [hr|].
    - destruct IH as (before & node' & after & -> & Hp & Hw & Hb).
      exists (node :: before), node', after. by repeat constructor.
    - by constructor. }
  destruct (node_uevent node) as [| |content] eqn:Hu.
  - apply Hskip. intros (c & Hc & _). congruence.
  - apply Hskip. intros (c & Hc & _). congruence.
  - destruct (is_wired_keyboard content) eqn:Hw.
    + exists [], node, nodes. split; [done|]. split; [done|].
      split; [|done]. by apply (is_wired_keyboard_spec node content).
    + apply Hskip. intros Hn.
      apply (is_wired_keyboard_spec node content) in Hn; congruence.
Qed.

(** ** The packed events *)

(** X10: [make_key_event] lays a key event out as 24 bytes with the type
    EV_KEY at offset 16 and the keycode, low byte first, at offset 18.
    For keycodes below 65536 and the values 0 and 1, different pairs of
    keycode and value give different byte strings, and none of them is
    the SYN_EVENT marker. *)
Theorem make_key_event_layout (k v k' v' : Z) :
  0 ≤ k < 65536 → 0 ≤ k' < 65536 → 0 ≤ v < 2 → 0 ≤ v' < 2 →
  length (make_key_event k v) = 24%nat ∧
  byte_to_Z <$> slice 16 20 (make_key_event k v)
    = [EV_KEY; 0; k mod 256; k / 256] ∧
  (make_key_event k v = make_key_event k' v' ↔ k = k' ∧ v = v') ∧
  make_key_event k v ≠ SYN_EVENT.
Proof.
  intros Hk Hk' Hv Hv'. split; [reflexivity|]. split.
  - unfold make_key_event, pack_llHHi, slice.
    change (drop 16 (le_bytes 8 0 ++ le_bytes 8 0 ++ le_bytes 2 EV_KEY ++
                     le_bytes 2 k ++ le_bytes 4 v))
      with (le_bytes 2 EV_KEY ++ le_bytes 2 k ++ le_bytes 4 v).
    cbn [le_bytes app take Nat.sub fmap list_fmap].
    rewrite !byte_to_Z_to_byte.
    change (EV_KEY mod 256) with EV_KEY.
    change (EV_KEY / 256 mod 256) with 0.
    rewrite (Z.mod_small (k / 256))
      by (split; [apply Z.div_pos; lia|apply Z.div_lt_upper_bound; lia]).
    reflexivity.
  - split; [|apply make_key_event_not_SYN]. split.
    + by apply make_key_event_inj.
    + by intros [-> ->].
Qed.

Lemma make_key_event_layout_witness :
  byte_to_Z <$> slice 16 20 (make_key_event 125 1) = [EV_KEY; 0; 125; 0] ∧
  make_key_event 125 1 ≠ make_key_event 125 0.
Proof.
  destruct (make_key_event_layout 125 1 125 0
              ltac:(lia) ltac:(lia) ltac:(lia) ltac:(lia))
    as (_ & Hl & Hinj & _).
  split; [exact Hl|]. intros Heq. apply Hinj in Heq. lia.
Defined.

(** ** Sizes *)

Lemma length_omap_le {A B} (f : A → option B) (l : list A) :
  (length (omap f l) ≤ length l)%nat.
Proof.
  induction l as [|a l IH]; [done|]. rewrite omap_cons_eq.
  destruct (f a); simpl; lia.
Qed.

Lemma length_set_iter `{SetIteration} (K : gset Z) :
  iteration_ok → length (set_iter K) = size K.
Proof. intros Hok. by rewrite (Hok K). Qed.

Lemma length_key_events_set `{SetIteration} value (K K' : gset Z) :
  iteration_ok → K ⊆ K' →
  (length (key_events value (set_iter K)) ≤ size K')%nat.
Proof.
  intros Hok Hsub. unfold key_events.
  pose proof (length_omap_le
    (λ hid_code, (λ keycode, make_key_event keycode value) <$>
                   HID_TO_LINUX !! hid_code) (set_iter K)) as Hle.
  rewrite length_set_iter in Hle by done.
  apply subseteq_size in Hsub. lia.
Qed.

(** X11: with at most six scancodes tracked, one report makes at most 20
    events (8 modifiers, 6 releases, 6 presses) and a full release at
    most 14, so that no write of the driver exceeds 21 structs of 24
    bytes; the payload of a batch of [n] events is always [24 * (n + 1)]
    bytes long. *)
Theorem batch_size_bounded `{SetIteration} (data : bytes) (w : world) :
  iteration_ok → rollover_ok w →
  (length (report_events (obj w) data) ≤ 20)%nat ∧
  (length (release_events (obj w)) ≤ 14)%nat ∧
  length (concat (report_events (obj w) data) ++ SYN_EVENT)
    = (24 * (length (report_events (obj w) data) + 1))%nat ∧
  (length (concat (report_events (obj w) data) ++ SYN_EVENT) ≤ 504)%nat.
Proof.
  unfold rollover_ok. intros Hok Hroll.
  pose proof (size_report_keys data) as Hkeys.
  assert (Hmc : ∀ p m, (length (modifier_change_events p m) ≤ 8)%nat).
  { intros p m. apply (length_omap_le _ MODIFIER_MAP). }
  assert (Hmr : ∀ p, (length (modifier_release_events p) ≤ 8)%nat).
  { intros p. apply (length_omap_le _ MODIFIER_MAP). }
  assert (Hrel : (length (key_events 0
            (set_iter (prev_keys (obj w) ∖ report_keys data)))
            ≤ size (prev_keys (obj w)))%nat).
  { apply length_key_events_set; [done|set_solver]. }
  assert (Hpress : (length (key_events 1
            (set_iter (report_keys data ∖ prev_keys (obj w))))
            ≤ size (report_keys data))%nat).
  { apply length_key_events_set; [done|set_solver]. }
  assert (Hall : (length (key_events 0 (set_iter (prev_keys (obj w))))
            ≤ size (prev_keys (obj w)))%nat).
  { by apply length_key_events_set. }
  assert (Hn : (length (report_events (obj w) data) ≤ 20)%nat).
  { rewrite report_events_eq, !length_app.
    specialize (Hmc (prev_modifiers (obj w)) (report_modifiers data)). lia. }
  split; [exact Hn|]. split.
  { rewrite release_events_eq, length_app.
    specialize (Hmr (prev_modifiers (obj w))). lia. }
  assert (Hlen : length (concat (report_events (obj w) data) ++ SYN_EVENT)
            = (24 * (length (report_events (obj w) data) + 1))%nat).
  { rewrite length_app, length_SYN_EVENT.
    rewrite length_concat_sized by apply report_events_sized.
    unfold EVENT_SIZE. lia. }
  split; [exact Hlen|]. rewrite Hlen. lia.
Qed.

Lemma batch_size_bounded_witness :
  rollover_ok (world_after report_ctrl_a) ∧
  (length (report_events (H := elements_iteration)
             (obj (world_after report_ctrl_a)) report_b) ≤ 20)%nat.
Proof.
  assert (Hr : rollover_ok (world_after report_ctrl_a)).
  { unfold rollover_ok. vm_compute. lia. }
  split; [exact Hr|].
  exact (proj1 (batch_size_bounded (H := elements_iteration) report_b
                  (world_after report_ctrl_a) elements_iteration_ok Hr)).
Defined.

(** ** The recorded state holds bytes *)

Lemma report_modifiers_range data : 0 ≤ report_modifiers data < 256.
Proof.
  destruct data as [|b data]; cbn [report_modifiers]; [lia|].
  apply byte_to_Z_range.
Qed.

Lemma report_keys_range data s : s ∈ report_keys data → 0 < s < 256.
Proof.
  intros [Hnz Hin]%report_keys_elem.
  apply list_elem_of_fmap in Hin as (b & -> & _).
  pose proof (byte_to_Z_range b). lia.
Qed.

Lemma state_in_range_ext w w' :
  prev_modifiers (obj w') = prev_modifiers (obj w) →
  prev_keys (obj w') = prev_keys (obj w) →
  state_in_range w → state_in_range w'.
Proof. unfold state_in_range. by intros -> ->. Qed.

Lemma in_range_modify (f : world → world) :
  (∀ w, state_in_range w → state_in_range (f w)) →
  preserves state_in_range (modify f).
Proof. intros Hf w Hw. by apply Hf. Qed.

Lemma in_range_emit_events events :
  preserves state_in_range (emit_events events).
Proof.
  intros w Hw. apply (state_in_range_ext w); [| |done];
    by rewrite emit_events_obj.
Qed.

Lemma in_range_set_prev_modifiers m :
  0 ≤ m < 256 → preserves state_in_range (set_prev_modifiers m).
Proof. intros Hm. apply in_range_modify. by intros w [_ HK]. Qed.

Lemma in_range_set_prev_keys (K : gset Z) :
  (∀ s, s ∈ K → 0 < s < 256) → preserves state_in_range (set_prev_keys K).
Proof. intros HK. apply in_range_modify. by intros w [Hm _]. Qed.

Lemma in_range_set_hidraw_fd v : preserves state_in_range (set_hidraw_fd v).
Proof. by apply in_range_modify. Qed.

Lemma in_range_set_uinput_fd v : preserves state_in_range (set_uinput_fd v).
Proof. by apply in_range_modify. Qed.

Lemma in_range_os_close fd : preserves state_in_range (os_close_quietly fd).
Proof. by apply in_range_modify. Qed.

Lemma in_range_empty_keys s : s ∈ (∅ : gset Z) → 0 < s < 256.
Proof. by intros ?%not_elem_of_empty. Qed.

Lemma in_range_process_hid_report `{SetIteration} data :
  preserves state_in_range (process_hid_report data).
Proof.
  unfold process_hid_report. case_decide; [apply preserves_ret|].
  apply preserves_bind; [apply preserves_get_self|]. intros s.
  apply preserves_bind; [apply in_range_emit_events|]. intros _.
  apply preserves_bind.
  - apply in_range_set_prev_modifiers, report_modifiers_range.
  - intros _. apply in_range_set_prev_keys, report_keys_range.
Qed.

Lemma in_range_release_all_keys `{SetIteration} :
  preserves state_in_range release_all_keys.
Proof.
  unfold release_all_keys.
  apply preserves_bind; [apply preserves_get_self|]. intros s.
  apply preserves_bind; [apply in_range_emit_events|]. intros _.
  apply preserves_bind; [by apply in_range_set_prev_modifiers|]. intros _.
  apply in_range_set_prev_keys, in_range_empty_keys.
Qed.

Lemma in_range_disconnect_hidraw `{SetIteration} :
  preserves state_in_range disconnect_hidraw.
Proof.
  unfold disconnect_hidraw.
  apply preserves_bind; [apply preserves_get_self|]. intros s.
  destruct (hidraw_fd s); [|apply preserves_ret].
  apply preserves_bind; [apply in_range_os_close|]. intros _.
  apply preserves_bind; [apply in_range_set_hidraw_fd|]. intros _.
  apply in_range_release_all_keys.
Qed.

Lemma in_range_connect_hidraw `{SetIteration} found opened :
  preserves state_in_range (connect_hidraw found opened).
Proof.
  unfold connect_hidraw. destruct found; [|apply preserves_ret].
  destruct opened; [|apply preserves_ret].
  apply preserves_bind; [apply in_range_set_hidraw_fd|]. intros _.
  apply preserves_bind; [by apply in_range_set_prev_modifiers|]. intros _.
  apply preserves_bind; [|intros _; apply preserves_ret].
  apply in_range_set_prev_keys, in_range_empty_keys.
Qed.

Lemma in_range_drain `{SetIteration} reads :
  preserves state_in_range (drain reads).
Proof.
  induction reads as [|r reads IH]; cbn [drain]; [apply preserves_ret|].
  apply preserves_bind; [|intros []; [done|apply preserves_ret]].
  unfold drain_step. apply preserves_try_except.
  - apply preserves_bind.
    + destruct r; [apply preserves_ret|apply preserves_raise].
    + intros data. apply preserves_bind; [|intros ?; apply preserves_ret].
      case_decide; [apply in_range_process_hid_report|apply preserves_ret].
  - intros e h. destruct (is_BlockingIOError e); [|done].
    intros [= <-]. apply preserves_ret.
Qed.

Lemma in_range_run_loop `{SetIteration} envs :
  preserves state_in_range (run_loop envs).
Proof.
  induction envs as [|env envs IH]; cbn [run_loop]; [apply preserves_ret|].
  apply preserves_bind; [|by intros _].
  unfold run_iteration.
  apply preserves_bind; [apply preserves_get_self|]. intros s.
  apply preserves_bind.
  - destruct (hidraw_fd s);
      [apply preserves_ret|apply in_range_connect_hidraw].
  - intros []; [|apply preserves_ret].
    unfold poll_device. apply preserves_try_except.
    + destruct (env_readable env); [apply in_range_drain|apply preserves_ret].
    + intros [errno|] h; [|done]. intros [= <-].
      repeat case_decide;
        [apply in_range_disconnect_hidraw|apply preserves_raise
        |apply preserves_ret].
Qed.

(** X12: the recorded state only ever holds bytes.  After any number of
    iterations of the main loop from a fresh object, whatever is read
    and whether writes succeed or fail, [prev_modifiers] is between 0
    and 255, and every member of [prev_keys] is between 1 and 255: the
    empty slot value 0 is never tracked as a key. *)
Theorem recorded_state_in_byte_range `{SetIteration}
    (fd : Z) (envs : list poll_env) (faults : list (option Z)) :
  let after := (run_loop envs (world_after_setup fd faults)).2 in
  0 ≤ prev_modifiers (obj after) < 256 ∧
  (0 ∉ prev_keys (obj after)) ∧
  ∀ s, s ∈ prev_keys (obj after) → 0 < s < 256.
Proof.
  cbv zeta.
  assert (Hinit : state_in_range (world_after_setup fd faults)).
  { split; [done|]. intros s Hs. by apply not_elem_of_empty in Hs. }
  destruct (in_range_run_loop envs _ Hinit) as [Hm HK].
  split; [exact Hm|]. split; [|exact HK].
  intros H0. apply HK in H0. lia.
Qed.

(** ** Descriptors at the end of [run] *)

Lemma try_finally_world {A} (body : M A) cleanup w :
  (try_finally body cleanup w).2 = (cleanup (body w).2).2.
Proof.
  unfold try_finally. destruct (body w) as [[a|e] w1]; cbn [snd];
    by destruct (cleanup w1) as [[u|e'] w2].
Qed.


